(** * status-monitor email worker: body extraction and webhook forwarding

    Shallow embedding of [src/email-worker/src/index.ts].

    A JavaScript string is a sequence of UTF-16 code units; it is modelled
    as [list N].  The regular expressions of the source are kept as data
    ([regex]) and run by a backtracking matcher that follows the
    continuation-passing matcher of the ECMAScript specification
    (section 22.2.2), restricted to the constructs the source uses. *)

From Stdlib Require Import Ascii String DecimalString.
From Stdlib Require Import List NArith ZArith Lia Bool.
Import ListNotations.

(** ** Strings *)

Definition jsstring := list N.

(** ASCII literal of the source text as code units. *)
Definition lit (s : string) : jsstring :=
  map N_of_ascii (list_ascii_of_string s).

Definition CR : N := 13%N.
Definition LF : N := 10%N.
Definition SP : N := 32%N.
Definition DQUOTE : N := 34%N.

Local Open Scope N_scope.

(** ** Character classes *)

(** [\s]: WhiteSpace and LineTerminator code points of ECMAScript. *)
Definition is_space (c : N) : bool :=
  ((9 <=? c) && (c <=? 13))
  || (c =? 32) || (c =? 160) || (c =? 5760)
  || ((8192 <=? c) && (c <=? 8202))
  || (c =? 8232) || (c =? 8233) || (c =? 8239) || (c =? 8287)
  || (c =? 12288) || (c =? 65279).

Definition is_digit (c : N) : bool := (48 <=? c) && (c <=? 57).
Definition is_upper (c : N) : bool := (65 <=? c) && (c <=? 90).
Definition is_lower (c : N) : bool := (97 <=? c) && (c <=? 122).

(** [\w] = [[A-Za-z0-9_]]. *)
Definition is_word (c : N) : bool :=
  is_upper c || is_lower c || is_digit c || (c =? 95).

(** [[0-9A-Fa-f]]. *)
Definition is_hex (c : N) : bool :=
  is_digit c || ((65 <=? c) && (c <=? 70)) || ((97 <=? c) && (c <=? 102)).

(** [[\w-]]. *)
Definition is_word_or_dash (c : N) : bool := is_word c || (c =? 45).

(** [[^\r\n]]. *)
Definition not_crlf (c : N) : bool := negb ((c =? CR) || (c =? LF)).

(** [[^>]]. *)
Definition not_gt (c : N) : bool := negb (c =? 62).

(** [[\s\S]]. *)
Definition any_char (c : N) : bool := is_space c || negb (is_space c).

(** Canonicalize of a pattern with the [i] flag and without the [u] flag,
    on the ASCII range: a code unit of 128 or more never canonicalizes to
    one below 128, so against an ASCII pattern character only the two
    ASCII cases of the letter match. *)
Definition ascii_upper (c : N) : N := if is_lower c then c - 32 else c.

Definition ci (x c : N) : bool := ascii_upper c =? ascii_upper x.

(** ** Regular expressions *)

Inductive regex : Type :=
| Eps : regex
| Chr : (N -> bool) -> regex
| Seq : regex -> regex -> regex
| Alt : regex -> regex -> regex
| Star : bool -> regex -> regex.   (* [Star true r] is r*, [Star false r] is r*? *)

Definition Plus (r : regex) : regex := Seq r (Star true r).
Definition Opt (r : regex) : regex := Alt r Eps.

Fixpoint Str (p : N -> N -> bool) (s : jsstring) : regex :=
  match s with
  | [] => Eps
  | c :: s' => Seq (Chr (p c)) (Str p s')
  end.

(** Case-sensitive and case-insensitive literals. *)
Definition Lit (s : string) : regex := Str N.eqb (lit s).
Definition LitI (s : string) : regex := Str ci (lit s).

Definition orelse {A} (x y : option A) : option A :=
  match x with Some _ => x | None => y end.

Section Matcher.
Variable A : Type.

(** One quantifier loop (RepeatMatcher with min 0 and no max): an
    iteration that does not consume input is rejected, so [n] iterations
    suffice for an input of length [n]. *)
Fixpoint star_loop (body : (jsstring -> option A) -> jsstring -> option A)
         (greedy : bool) (k : jsstring -> option A) (n : nat) (s : jsstring)
  : option A :=
  match n with
  | O => k s
  | S n' =>
      let iter :=
        body (fun s' =>
                if (length s' <? length s)%nat
                then star_loop body greedy k n' s' else None) s in
      if greedy then orelse iter (k s) else orelse (k s) iter
  end.

(** [m r k s]: match [r] at the front of [s], then run the continuation
    [k] on the rest; alternatives are tried in priority order. *)
Fixpoint m (r : regex) (k : jsstring -> option A) (s : jsstring) : option A :=
  match r with
  | Eps => k s
  | Chr p =>
      match s with
      | c :: s' => if p c then k s' else None
      | [] => None
      end
  | Seq r1 r2 => m r1 (m r2 k) s
  | Alt r1 r2 => orelse (m r1 k s) (m r2 k s)
  | Star g r' => star_loop (m r') g k (length s) s
  end.
End Matcher.

Arguments star_loop {A} body greedy k n s.
Arguments m {A} r k s.

(** A pattern with one capture group between two uncaptured parts,
    [before(group)after]. *)
Record cpattern : Type := CPattern {
  before : regex;
  group : regex;
  after : regex
}.

(** Match at the front of [s]; the result is the text of group 1. *)
Definition match_at (p : cpattern) (s : jsstring) : option jsstring :=
  m (before p)
    (fun s1 =>
       m (group p)
         (fun s2 =>
            m (after p)
              (fun _ => Some (firstn (length s1 - length s2) s1)) s2) s1) s.

(** [String.prototype.match] with a non-global pattern: the leftmost
    start position at which the pattern matches; [Some c] is group 1. *)
Fixpoint str_match (p : cpattern) (s : jsstring) : option jsstring :=
  match match_at p s with
  | Some c => Some c
  | None =>
      match s with
      | [] => None
      | _ :: s' => str_match p s'
      end
  end.

(** [String.prototype.replace] with a global pattern and a replacement
    function of the matched text. *)
Fixpoint replace_loop (fuel : nat) (r : regex) (f : jsstring -> jsstring)
         (s : jsstring) : jsstring :=
  match fuel with
  | O => s
  | S fuel' =>
      match m r (@Some jsstring) s with
      | Some rest =>
          if (length rest <? length s)%nat
          then f (firstn (length s - length rest) s)
                 ++ replace_loop fuel' r f rest
          else match s with
               | [] => f []
               | c :: s' => f [] ++ c :: replace_loop fuel' r f s'
               end
      | None =>
          match s with
          | [] => []
          | c :: s' => c :: replace_loop fuel' r f s'
          end
      end
  end.

Definition replace_all (r : regex) (f : jsstring -> jsstring) (s : jsstring)
  : jsstring :=
  replace_loop (S (length s)) r f s.

(** [String.prototype.trim]. *)
Fixpoint trim_start (s : jsstring) : jsstring :=
  match s with
  | c :: s' => if is_space c then trim_start s' else s
  | [] => []
  end.

Definition trim_end (s : jsstring) : jsstring := rev (trim_start (rev s)).

Definition trim (s : jsstring) : jsstring := trim_end (trim_start s).

(** [String.prototype.indexOf]: the first index at which [needle] occurs,
    or -1. *)
Fixpoint starts_with (needle s : jsstring) : bool :=
  match needle, s with
  | [], _ => true
  | _ :: _, [] => false
  | a :: needle', b :: s' => (a =? b) && starts_with needle' s'
  end.

Fixpoint indexOf_from (needle s : jsstring) (i : Z) : Z :=
  if starts_with needle s then i
  else match s with
       | [] => (-1)%Z
       | _ :: s' => indexOf_from needle s' (i + 1)%Z
       end.

Definition indexOf (needle s : jsstring) : Z := indexOf_from needle s 0%Z.

(** [s.slice(0, n)] and [s.slice(n)] for a non-negative [n]. *)
Definition slice_to (n : nat) (s : jsstring) : jsstring := firstn n s.
Definition slice_from (n : nat) (s : jsstring) : jsstring := skipn n s.

Arguments slice_to : simpl never.
Arguments slice_from : simpl never.

(** ** The patterns of the source *)

(** [\r?\n].  For a code unit below [A], such as CR, LF and [-], matching
    with the [i] flag is equality (lemmas [ci_below_l], [ci_below_r]). *)
Definition eol : regex := Seq (Opt (Chr (N.eqb CR))) (Chr (N.eqb LF)).

(** [(?:[\w-]+:[^\r\n]*\r?\n)*] *)
Definition header_line : regex :=
  Seq (Plus (Chr is_word_or_dash))
      (Seq (Chr (N.eqb 58)) (Seq (Star true (Chr not_crlf)) eol)).

(** [Content-Type:\s*text\/<subtype>[^\r\n]*\r?\n(?:[\w-]+:[^\r\n]*\r?\n)*\r?\n] *)
Definition part_head (subtype : string) : regex :=
  Seq (LitI "Content-Type:")
      (Seq (Star true (Chr is_space))
           (Seq (LitI "text/")
                (Seq (LitI subtype)
                     (Seq (Star true (Chr not_crlf))
                          (Seq eol (Seq (Star true header_line) eol)))))).

Definition dashes : regex := Lit "--".

(** The pattern of [plainBoundaryMatch]. *)
Definition plainRe : cpattern :=
  {| before := part_head "plain";
     group := Star false (Chr any_char);
     after := Alt (Seq eol dashes) (Seq eol (Seq eol dashes)) |}.

(** The pattern of [htmlMatch]. *)
Definition htmlRe : cpattern :=
  {| before := part_head "html";
     group := Star false (Chr any_char);
     after := Seq eol dashes |}.

(** [/<style[^>]*>[\s\S]*?<\/style>/gi] *)
Definition styleRe : regex :=
  Seq (LitI "<style")
      (Seq (Star true (Chr not_gt))
           (Seq (Chr (ci 62))
                (Seq (Star false (Chr any_char)) (LitI "</style>")))).

(** [/<[^>]+>/g] *)
Definition tagRe : regex :=
  Seq (Chr (N.eqb 60)) (Seq (Plus (Chr not_gt)) (Chr (N.eqb 62))).

(** [/=\r?\n/g] *)
Definition softBreakRe : regex := Seq (Chr (N.eqb 61)) eol.

(** [/=([0-9A-Fa-f]{2})/g] *)
Definition hexEscapeRe : regex :=
  Seq (Chr (N.eqb 61)) (Seq (Chr is_hex) (Chr is_hex)).

(** [/\s+/g] *)
Definition spacesRe : regex := Plus (Chr is_space).

(** ** cleanBody *)

(** [parseInt(hex, 16)] on a string of hexadecimal digits. *)
Definition hex_digit (c : N) : N :=
  if is_digit c then c - 48
  else if is_upper c then c - 55
  else c - 87.

Definition parseInt16 (s : jsstring) : N :=
  fold_left (fun acc c => 16 * acc + hex_digit c) s 0.

(** [String.fromCharCode]: one code unit, the argument modulo 2^16. *)
Definition fromCharCode (n : N) : jsstring := [n mod 65536].

Definition const_repl (t : jsstring) : jsstring -> jsstring := fun _ => t.

(** The replacement function of the hex-escape step: [hex] is group 1,
    the matched text without its leading [=]. *)
Definition hex_repl (matched : jsstring) : jsstring :=
  fromCharCode (parseInt16 (tl matched)).

Definition remove_soft_breaks (s : jsstring) : jsstring :=
  replace_all softBreakRe (const_repl []) s.

Definition decode_hex_escapes (s : jsstring) : jsstring :=
  replace_all hexEscapeRe hex_repl s.

Definition collapse_spaces (s : jsstring) : jsstring :=
  replace_all spacesRe (const_repl [SP]) s.

Definition cleanBody (text : jsstring) : jsstring :=
  trim (collapse_spaces (decode_hex_escapes (remove_soft_breaks text))).

(** ** extractTextBody *)

Definition strip_style (s : jsstring) : jsstring :=
  replace_all styleRe (const_repl []) s.

Definition strip_tags (s : jsstring) : jsstring :=
  replace_all tagRe (const_repl [SP]) s.

Definition replace_lit (entity : string) (t : jsstring) (s : jsstring)
  : jsstring :=
  replace_all (Lit entity) (const_repl t) s.

Definition decode_entities (s : jsstring) : jsstring :=
  replace_lit "&gt;" [62]
    (replace_lit "&lt;" [60]
       (replace_lit "&amp;" [38]
          (replace_lit "&nbsp;" [SP] s))).

Definition html_to_text (s : jsstring) : jsstring :=
  decode_entities (strip_tags (strip_style s)).

Definition blank_line : jsstring := [CR; LF; CR; LF].

Definition extractTextBody (raw : jsstring) : jsstring :=
  match str_match plainRe raw with
  | Some c => cleanBody c
  | None =>
      match str_match htmlRe raw with
      | Some c => cleanBody (html_to_text c)
      | None =>
          let headerEnd := indexOf blank_line raw in
          if (0 <? headerEnd)%Z
          then cleanBody (slice_from (Z.to_nat (headerEnd + 4)) raw)
          else slice_to 500 raw
      end
  end.

(** * The email handler *)

(** [x || d] on a possibly null string: null and the empty string are
    falsy. *)
Definition or_default (x : option jsstring) (d : jsstring) : jsstring :=
  match x with
  | Some (c :: s) => c :: s
  | Some [] => d
  | None => d
  end.

(** [ForwardableEmailMessage]: the envelope, the header lookup and the
    reads that the stream reader will deliver, in order.  A read delivers
    a value (possibly undefined), or rejects; when the list is exhausted
    the reader reports [done]. *)
Inductive read_step : Type :=
| ReadValue (value : option (list N))
| ReadFails (err : jsstring).

Record message : Type := Message {
  msg_from : jsstring;
  msg_to : jsstring;
  headers_get : jsstring -> option jsstring;
  msg_raw : list read_step
}.

Record Env : Type := { WEBHOOK_URL : jsstring }.

Record payload : Type := Payload {
  p_source : jsstring;
  p_from : jsstring;
  p_to : jsstring;
  p_subject : jsstring;
  p_body : jsstring;
  p_received_at : jsstring
}.

(** The request handed to [fetch]; [req_body] is the payload given to
    [JSON.stringify]. *)
Record request : Type := Request {
  req_url : jsstring;
  req_method : jsstring;
  req_headers : list (jsstring * jsstring);
  req_body : payload
}.

Inductive fetch_result : Type :=
| Response (status : N)
| NetworkError (err : jsstring).

Inductive event : Type :=
| ConsoleLog (msg : jsstring)
| ConsoleError (msg : jsstring)
| Fetch (req : request).

(** What the platform answers: the clock and the network. *)
Record world : Type := World {
  clock : jsstring;
  network : request -> fetch_result
}.

Inductive outcome (A : Type) : Type :=
| Ok (a : A)
| Thrown (err : jsstring).

Arguments Ok {A} a.
Arguments Thrown {A} err.

(** Computations that read the world, append to the trace of effects and
    return or throw. *)
Definition io (A : Type) : Type :=
  world -> list event -> list event * outcome A.

Definition ret {A} (a : A) : io A := fun _ t => (t, Ok a).

Definition bind {A B} (x : io A) (f : A -> io B) : io B :=
  fun w t =>
    match x w t with
    | (t', Ok a) => f a w t'
    | (t', Thrown e) => (t', Thrown e)
    end.

Definition throw {A} (e : jsstring) : io A := fun _ t => (t, Thrown e).

Definition try_catch {A} (x : io A) (h : jsstring -> io A) : io A :=
  fun w t =>
    match x w t with
    | (t', Ok a) => (t', Ok a)
    | (t', Thrown e) => h e w t'
    end.

Definition console_log (msg : jsstring) : io unit :=
  fun _ t => (t ++ [ConsoleLog msg], Ok tt).

Definition console_error (msg : jsstring) : io unit :=
  fun _ t => (t ++ [ConsoleError msg], Ok tt).

Definition fetch (req : request) : io N :=
  fun w t =>
    (t ++ [Fetch req],
     match network w req with
     | Response status => Ok status
     | NetworkError e => Thrown e
     end).

Definition date_now_iso : io jsstring := fun w t => (t, Ok (clock w)).

Notation "x <- c1 ;; c2" := (bind c1 (fun x => c2))
  (at level 61, c1 at next level, right associativity).
Notation "c1 ;;; c2" := (bind c1 (fun _ => c2))
  (at level 61, right associativity).

(** The loop over [reader.read()]. *)
Fixpoint read_chunks (pending : list read_step) (chunks : list (list N))
  : io (list (list N)) :=
  match pending with
  | [] => ret chunks
  | ReadFails e :: _ => throw e
  | ReadValue (Some value) :: rest => read_chunks rest (chunks ++ [value])
  | ReadValue None :: rest => read_chunks rest chunks
  end.

(** [result.set(arr, offset)]. *)
Definition set_at (result arr : list N) (offset : nat) : list N :=
  firstn offset result ++ arr ++ skipn (offset + length arr) result.

Definition concatenate (arrays : list (list N)) : list N :=
  let totalLength :=
    fold_left (fun sum arr => (sum + length arr)%nat) arrays 0%nat in
  fst (fold_left
         (fun (st : list N * nat) arr =>
            (set_at (fst st) arr (snd st), (snd st + length arr)%nat))
         arrays (repeat 0 totalLength, 0%nat)).

(** Decimal rendering of a number in a template literal. *)
Definition number_to_string (n : N) : jsstring :=
  lit (NilZero.string_of_uint (N.to_uint n)).

Section Handler.
(** [new TextDecoder().decode]: UTF-8 bytes to a string. *)
Variable decode : list N -> jsstring.

Definition build_payload (from to subject body now : jsstring) : payload :=
  {| p_source := lit "email";
     p_from := from;
     p_to := to;
     p_subject := subject;
     p_body := slice_to 2000 body;
     p_received_at := now |}.

Definition email (message : message) (env : Env) : io unit :=
  let from := msg_from message in
  let to := msg_to message in
  let subject :=
    or_default (headers_get message (lit "subject")) (lit "(no subject)") in
  chunks <- read_chunks (msg_raw message) [] ;;
  let rawEmail := decode (concatenate chunks) in
  let body := extractTextBody rawEmail in
  now <- date_now_iso ;;
  let payload := build_payload from to subject body now in
  console_log (lit "Email received: from=" ++ from ++ lit " subject="
               ++ [DQUOTE] ++ subject ++ [DQUOTE]) ;;;
  try_catch
    (status <- fetch {| req_url := WEBHOOK_URL env;
                        req_method := lit "POST";
                        req_headers :=
                          [(lit "Content-Type", lit "application/json")];
                        req_body := payload |} ;;
     console_log (lit "Webhook response: " ++ number_to_string status))
    (fun err => console_error (lit "Webhook POST failed: " ++ err)).

(** One invocation: the trace of effects and how it completes. *)
Definition run_email (message : message) (env : Env) (w : world)
  : list event * outcome unit :=
  email message env w [].

(** The request of an invocation that received [chunks]. *)
Definition request_of (message : message) (env : Env) (w : world)
           (chunks : list (list N)) : request :=
  {| req_url := WEBHOOK_URL env;
     req_method := lit "POST";
     req_headers := [(lit "Content-Type", lit "application/json")];
     req_body :=
       build_payload (msg_from message) (msg_to message)
         (or_default (headers_get message (lit "subject"))
                     (lit "(no subject)"))
         (extractTextBody (decode (concatenate chunks))) (clock w) |}.

Definition received_line (message : message) : jsstring :=
  lit "Email received: from=" ++ msg_from message ++ lit " subject="
  ++ [DQUOTE]
  ++ or_default (headers_get message (lit "subject")) (lit "(no subject)")
  ++ [DQUOTE].
End Handler.

Definition posts (t : list event) : list request :=
  flat_map (fun ev => match ev with Fetch req => [req] | _ => [] end) t.

(** * Vocabulary of the statements *)

(** [Matches r s]: the whole of [s] is matched by [r] (an iteration of a
    quantifier consumes input, as in the matcher). *)
Inductive Matches : regex -> jsstring -> Prop :=
| MEps : Matches Eps []
| MChr p c : p c = true -> Matches (Chr p) [c]
| MSeq r1 r2 s1 s2 :
    Matches r1 s1 -> Matches r2 s2 -> Matches (Seq r1 r2) (s1 ++ s2)
| MAltL r1 r2 s : Matches r1 s -> Matches (Alt r1 r2) s
| MAltR r1 r2 s : Matches r2 s -> Matches (Alt r1 r2) s
| MStarNil g r : Matches (Star g r) []
| MStarCons g r s1 s2 :
    Matches r s1 -> s1 <> [] -> Matches (Star g r) s2 ->
    Matches (Star g r) (s1 ++ s2).

#[local] Hint Constructors Matches : core.

(** [occurs needle s]: [needle] is a substring of [s]. *)
Definition occurs (needle s : jsstring) : Prop :=
  exists a b, s = a ++ needle ++ b.

(** [has_section p raw c]: somewhere in [raw] there is a stretch matched
    by the pattern [p] whose group 1 is [c]. *)
Definition has_section (p : cpattern) (raw c : jsstring) : Prop :=
  exists pre b a post,
    raw = pre ++ b ++ c ++ a ++ post
    /\ Matches (before p) b /\ Matches (group p) c /\ Matches (after p) a.

(** No terminator of the pattern starts inside the captured text [c]
    followed by [rest]. *)
Definition shortest_capture (p : cpattern) (c rest : jsstring) : Prop :=
  forall c1 c2 u v,
    c = c1 ++ c2 -> c2 <> [] -> c2 ++ rest = u ++ v -> ~ Matches (after p) u.

Definition lazy_group (p : cpattern) : Prop :=
  group p = Star false (Chr any_char).

(** What a successful [str_match] with a lazy group returns. *)
Definition leftmost_section (p : cpattern) (raw c : jsstring) : Prop :=
  exists pre b a post,
    raw = pre ++ b ++ c ++ a ++ post
    /\ Matches (before p) b /\ Matches (after p) a
    /\ shortest_capture p c (a ++ post)
    /\ forall pre' b' c' a' post',
        raw = pre' ++ b' ++ c' ++ a' ++ post' ->
        Matches (before p) b' -> Matches (group p) c' ->
        Matches (after p) a' -> (length pre <= length pre')%nat.

Definition at_end (s : jsstring) : option unit :=
  match s with [] => Some tt | _ :: _ => None end.

(** Decision procedure for [Matches], by the matcher itself. *)
Definition matchesb (r : regex) (s : jsstring) : bool :=
  match m r at_end s with Some _ => true | None => false end.

(** [no_match r u]: the pattern matches at no position of [u]. *)
Definition no_match (r : regex) (u : jsstring) : Prop :=
  forall a b, u = a ++ b -> m r (@Some jsstring) b = None.

(** [single_spaced s]: every whitespace code unit of [s] is a space and
    is not followed by another whitespace code unit. *)
Fixpoint single_spaced (s : jsstring) : Prop :=
  match s with
  | [] => True
  | c :: s' =>
      (is_space c = true ->
       c = SP /\ match s' with [] => True | d :: _ => is_space d = false end)
      /\ single_spaced s'
  end.

(** [no_hex_escape u]: [u] contains no [=XX] with two hexadecimal digits. *)
Definition no_hex_escape (u : jsstring) : Prop :=
  forall h1 h2, is_hex h1 = true -> is_hex h2 = true ->
                ~ occurs [61; h1; h2] u.

(** Boolean test for an [=XX] escape somewhere in [u]. *)
Fixpoint has_hex_escape (u : jsstring) : bool :=
  match u with
  | [] => false
  | c1 :: t =>
      match t with
      | c2 :: c3 :: _ => (c1 =? 61) && is_hex c2 && is_hex c3
      | _ => false
      end
      || has_hex_escape t
  end.

Definition soft_break (t : jsstring) : Prop :=
  t = 61 :: [LF] \/ t = 61 :: [CR; LF].

(** [is_tag t]: [t] is [<], one or more code units other than [>], [>]. *)
Definition is_tag (t : jsstring) : Prop :=
  exists x, t = 60 :: x ++ [62] /\ x <> [] /\ ~ In 62 x.

Definition no_tag_after (s : jsstring) : Prop :=
  s = [] \/ (exists z, s = 62 :: z) \/ ~ In 62 s.

(** [decodes_every e t]: the step that replaces the entity [e] by [t]
    replaces every occurrence of [e] in its input. *)
Definition decodes_every (e : string) (t : jsstring) : Prop :=
  forall a b,
    replace_lit e t (a ++ lit e ++ b)
    = replace_lit e t a ++ t ++ replace_lit e t b.

(** The reads of a stream that never rejects, and what they deliver. *)
Definition stream_ok (pending : list read_step) : Prop :=
  Forall (fun st => match st with ReadFails _ => False | _ => True end)
         pending.

Definition delivered (pending : list read_step) : list (list N) :=
  flat_map (fun st => match st with
                      | ReadValue (Some value) => [value]
                      | _ => []
                      end) pending.

Definition crlf : jsstring := [CR; LF].

(** A multipart message whose parts are given with their headers. *)
Definition multipart (parts : list jsstring) : jsstring :=
  lit "From: a@x.com" ++ crlf
  ++ lit "Content-Type: multipart/alternative; boundary=b" ++ crlf ++ crlf
  ++ concat (map (fun p => lit "--b" ++ crlf ++ p ++ crlf) parts)
  ++ lit "--b--".

Definition plain_head : jsstring :=
  lit "Content-Type: text/plain; charset=utf-8" ++ crlf
  ++ lit "Content-Transfer-Encoding: quoted-printable" ++ crlf ++ crlf.

Definition html_head : jsstring :=
  lit "Content-Type: text/html" ++ crlf ++ crlf.

Definition sample_both : jsstring :=
  multipart [plain_head ++ lit "Service   down."; html_head ++ lit "<p>x</p>"].

Definition sample_html (body : string) : jsstring :=
  multipart [html_head ++ lit body].

(** A message, an environment and a world whose network is unreachable,
    to run the handler on. *)
Definition sample_message (subject : option jsstring) : message :=
  {| msg_from := lit "a@x.com";
     msg_to := lit "b@y.com";
     headers_get := fun name =>
       if starts_with name (lit "subject") && starts_with (lit "subject") name
       then subject else None;
     msg_raw := [ReadValue (Some sample_both)] |}.

Definition sample_env : Env := {| WEBHOOK_URL := lit "https://monitor/hook" |}.

Definition unreachable : world :=
  {| clock := lit "2026-01-01T00:00:00.000Z";
     network := fun _ => NetworkError (lit "TypeError: fetch failed") |}.

Definition ascii_decode (bytes : list N) : jsstring := bytes.

(** A message whose stream delivers the given reads. *)
Definition stream_message (subject : option jsstring)
           (stream : list read_step) : message :=
  {| msg_from := lit "a@x.com";
     msg_to := lit "b@y.com";
     headers_get := fun name =>
       if starts_with name (lit "subject") && starts_with (lit "subject") name
       then subject else None;
     msg_raw := stream |}.

(** A world whose network answers every request with [status]. *)
Definition responding (status : N) : world :=
  {| clock := lit "2026-01-01T00:00:00.000Z";
     network := fun _ => Response status |}.

(** The error events of a trace. *)
Definition errors (t : list event) : list jsstring :=
  flat_map (fun ev => match ev with ConsoleError msg => [msg] | _ => [] end) t.

(** ** Parts of a message as a mail reader sees them

    The wider notion of a text part: a [Content-Type: text/<subtype>]
    header field, possibly folded onto continuation lines (each starts
    with a space or a tab), a blank line, and the content, which ends at
    the next boundary line or at the end of the message.  The patterns
    of the source find only some of these parts. *)
Definition continuation_line (l : jsstring) : Prop :=
  (exists t, l = SP :: t \/ l = 9 :: t) /\ ~ In CR l /\ ~ In LF l.

Definition text_part (subtype : string) (raw content : jsstring) : Prop :=
  exists pre params lines rest,
    raw = pre ++ lit "Content-Type: text/" ++ lit subtype ++ params ++ crlf
          ++ concat (map (fun l => l ++ crlf) lines)
          ++ crlf ++ content ++ rest
    /\ ~ In CR params /\ ~ In LF params
    /\ Forall continuation_line lines
    /\ (rest = [] \/ exists post, rest = crlf ++ lit "--" ++ post).

(** A text/plain part with a folded header, before a text/html part. *)
Definition sample_folded : jsstring :=
  multipart [lit "Content-Type: text/plain;" ++ crlf
             ++ lit " charset=utf-8" ++ crlf ++ crlf ++ lit "PLAIN BODY";
             html_head ++ lit "<p>HTML BODY</p>"].

(** A message that is one text/html part, with no boundary line. *)
Definition sample_single_html : jsstring :=
  lit "Subject: x" ++ crlf ++ lit "Content-Type: text/html" ++ crlf ++ crlf
  ++ lit "<p>a &amp; b</p>".

(** [closed_tags a]: every [<] of [a] has a [>] after it in [a]. *)
Definition closed_tags (a : jsstring) : Prop :=
  forall a1 a2, a = a1 ++ 60 :: a2 -> In 62 a2.

(** Each tag is replaced by one space. *)
Definition tags_become_spaces : Prop :=
  forall a t b,
    closed_tags a -> is_tag t ->
    strip_tags (a ++ t ++ b) = strip_tags a ++ [SP] ++ strip_tags b.

(** A style block, with its content, is removed: [<style], anything but
    [>], [>], a content without [<], [</style>], in any letter case. *)
Definition style_blocks_vanish : Prop :=
  forall a o x y cl b,
    ~ In 60 a -> Matches (LitI "<style") o -> ~ In 62 x -> ~ In 60 y ->
    Matches (LitI "</style>") cl ->
    strip_style (a ++ o ++ x ++ [62] ++ y ++ cl ++ b) = a ++ strip_style b.

(** Text without [<] is left as it is by the style and tag steps. *)
Definition markup_free_kept : Prop :=
  forall s, ~ In 60 s -> strip_style s = s /\ strip_tags s = s.

(** Every occurrence of the entity [e] in the text given to the entity
    steps comes out as the code unit [x]. *)
Definition entity_decoded (e : string) (x : N) : Prop :=
  forall a b,
    decode_entities (a ++ lit e ++ b)
    = decode_entities a ++ [x] ++ decode_entities b.

(** The same for [&amp;], when no [lt;] or [gt;] follows it. *)
Definition amp_decoded : Prop :=
  forall a b,
    starts_with (lit "lt;") b = false ->
    starts_with (lit "gt;") b = false ->
    decode_entities (a ++ lit "&amp;" ++ b)
    = decode_entities a ++ [38] ++ decode_entities b.

(** Every soft line break of a text is removed by the first step. *)
Definition soft_breaks_removed : Prop :=
  forall a t b,
    soft_break t ->
    remove_soft_breaks (a ++ t ++ b)
    = remove_soft_breaks a ++ remove_soft_breaks b.

(** Every [=XX] escape of a text is decoded by the second step, to the
    code unit whose value the two digits give. *)
Definition hex_decoded : Prop :=
  forall a h1 h2 b,
    is_hex h1 = true -> is_hex h2 = true ->
    decode_hex_escapes (a ++ [61; h1; h2] ++ b)
    = decode_hex_escapes a ++ [16 * hex_digit h1 + hex_digit h2]
      ++ decode_hex_escapes b.

(** [cleaned c r]: [r] is [c] after the four steps of the clean step, in
    their order, and is whitespace-normalised. *)
Definition cleaned (c r : jsstring) : Prop :=
  r = trim (collapse_spaces (decode_hex_escapes (remove_soft_breaks c)))
  /\ single_spaced r /\ trim r = r.

(** * Facts about the matcher *)

Section MatcherFacts.
Variable A : Type.
Implicit Types (k : jsstring -> option A) (s : jsstring) (r : regex).

Definition extensional
  (body : (jsstring -> option A) -> jsstring -> option A) : Prop :=
  forall k k' s, (forall x, k x = k' x) -> body k s = body k' s.

Lemma star_loop_ext body g k k' n s :
  extensional body -> (forall x, k x = k' x) ->
  star_loop body g k n s = star_loop body g k' n s.
Proof.
  intros Hb Hk. revert s.
  induction n as [|n IH]; intros s; simpl; [apply Hk|].
  rewrite (Hk s).
  rewrite (Hb _ (fun s' => if (length s' <? length s)%nat
                           then star_loop body g k' n s' else None) s);
    [reflexivity|].
  intros x. destruct (length x <? length s)%nat; auto.
Qed.

Lemma m_ext r k k' s :
  (forall x, k x = k' x) -> m r k s = m r k' s.
Proof.
  revert k k' s.
  induction r as [|p|r1 IH1 r2 IH2|r1 IH1 r2 IH2|g r IH];
    intros k k' s Hk; simpl.
  - apply Hk.
  - destruct s as [|c s]; [reflexivity|]. destruct (p c); auto.
  - apply IH1. intros x. apply IH2, Hk.
  - rewrite (IH1 k k' s Hk), (IH2 k k' s Hk). reflexivity.
  - apply star_loop_ext; [|assumption].
    intros k1 k2 s' H. apply IH, H.
Qed.

(** The continuation that always fails makes the match fail. *)
Lemma m_none r s : m r (fun _ => @None A) s = None.
Proof.
  revert s.
  induction r as [|p|r1 IH1 r2 IH2|r1 IH1 r2 IH2|g r IH]; intros s; simpl.
  - reflexivity.
  - destruct s as [|c s]; [reflexivity|]. destruct (p c); reflexivity.
  - rewrite (m_ext r1) with (k':=fun _ => None); [apply IH1|]. intros x. apply IH2.
  - rewrite IH1, IH2. reflexivity.
  - generalize (length s) as j. intros j. revert s.
    induction j as [|j IHj]; intros s; simpl; [reflexivity|].
    rewrite (m_ext r) with (k':=fun _ => None).
    + rewrite IH. destruct g; reflexivity.
    + intros x. destruct (length x <? length s)%nat; auto.
Qed.

Lemma star_loop_nil r g k n : star_loop (m r) g k n [] = k [].
Proof.
  destruct n as [|n]; [reflexivity|]. simpl. rewrite m_none.
  destruct g; [reflexivity|]. destruct (k []); reflexivity.
Qed.

Lemma star_loop_fuel r g k n n' s :
  (length s <= n)%nat -> (length s <= n')%nat ->
  star_loop (m r) g k n s = star_loop (m r) g k n' s.
Proof.
  revert n' s. induction n as [|n IH]; intros n' s Hn Hn'.
  - destruct s; [|simpl in Hn; lia].
    rewrite !star_loop_nil. reflexivity.
  - destruct n' as [|n'].
    + destruct s; [|simpl in Hn'; lia].
      rewrite !star_loop_nil. reflexivity.
    + simpl.
      rewrite (m_ext r) with (k':=fun s' =>
                 if (length s' <? length s)%nat
                 then star_loop (m r) g k n' s' else None);
        [reflexivity|].
      intros x.
      destruct (length x <? length s)%nat eqn:E; [|reflexivity].
      apply Nat.ltb_lt in E. apply IH; lia.
Qed.

(** Unfolding of a quantifier: one iteration that consumes input, then
    the quantifier again; or the continuation.  A greedy quantifier
    tries the iteration first, a lazy one the continuation. *)
Lemma m_star_unfold g r k s :
  m (Star g r) k s =
  let iter := m r (fun s' => if (length s' <? length s)%nat
                             then m (Star g r) k s' else None) s in
  if g then orelse iter (k s) else orelse (k s) iter.
Proof.
  simpl. destruct s as [|c s].
  - simpl. rewrite m_none. destruct g; [reflexivity|]. destruct (k []); reflexivity.
  - change (length (c :: s)) with (S (length s)). simpl star_loop.
    rewrite (m_ext r) with (k':=fun s' =>
               if (length s' <? S (length s))%nat
               then star_loop (m r) g k (length s') s' else None);
      [reflexivity|].
    intros x. destruct (length x <? S (length s))%nat eqn:E; [|reflexivity].
    apply Nat.ltb_lt in E. apply star_loop_fuel; lia.
Qed.
End MatcherFacts.

(** ** The language of a pattern *)

Section Soundness.
Variable A : Type.
Implicit Types (k : jsstring -> option A) (s : jsstring) (r : regex).

Lemma orelse_some (x y : option A) a :
  orelse x y = Some a -> x = Some a \/ (x = None /\ y = Some a).
Proof. destruct x; simpl; auto. Qed.

(** A successful match splits the input into a part in the language of
    the pattern and a rest accepted by the continuation. *)
Lemma m_sound r k s a :
  m r k s = Some a ->
  exists s1 s2, s = s1 ++ s2 /\ Matches r s1 /\ k s2 = Some a.
Proof.
  revert k s a.
  induction r as [|p|r1 IH1 r2 IH2|r1 IH1 r2 IH2|g r IH]; intros k s a H.
  - exists [], s. auto.
  - simpl in H. destruct s as [|c s]; [discriminate|].
    destruct (p c) eqn:E; [|discriminate].
    exists [c], s. auto.
  - simpl in H. apply IH1 in H. destruct H as (s1 & s2 & -> & M1 & H).
    apply IH2 in H. destruct H as (s3 & s4 & -> & M2 & H).
    exists (s1 ++ s3), s4. rewrite <- app_assoc. auto.
  - simpl in H. apply orelse_some in H. destruct H as [H|[_ H]].
    + apply IH1 in H. destruct H as (s1 & s2 & -> & M & H). eauto 6.
    + apply IH2 in H. destruct H as (s1 & s2 & -> & M & H). eauto 6.
  - simpl in H. revert H. generalize (length s) as n. intros n. revert s a.
    induction n as [|n IHn]; intros s a H.
    + exists [], s. auto.
    + simpl in H.
      assert (Hit : forall a',
                 m r (fun s' => if (length s' <? length s)%nat
                                then star_loop (m r) g k n s' else None) s
                 = Some a' ->
                 exists s1 s2, s = s1 ++ s2 /\ Matches (Star g r) s1
                               /\ k s2 = Some a').
      { intros a' Hi. apply IH in Hi.
        destruct Hi as (s1 & s2 & -> & M & Hi).
        destruct (length s2 <? length (s1 ++ s2))%nat eqn:E; [|discriminate].
        apply Nat.ltb_lt in E. rewrite length_app in E.
        apply IHn in Hi. destruct Hi as (s3 & s4 & -> & M' & Hi).
        exists (s1 ++ s3), s4. rewrite <- app_assoc.
        repeat split; auto. constructor; auto.
        intros ->. simpl in E. lia. }
      destruct g; apply orelse_some in H; destruct H as [H|[_ H]];
        auto; exists [], s; auto.
Qed.

(** Conversely, if a split exists, the match succeeds (possibly with an
    alternative of higher priority). *)
Lemma m_complete r s1 :
  Matches r s1 ->
  forall k s2 a, k s2 = Some a -> exists a', m r k (s1 ++ s2) = Some a'.
Proof.
  induction 1 as [|p c Hp|r1 r2 s1 s1' M1 IH1 M2 IH2|r1 r2 s1 M IH
                  |r1 r2 s1 M IH|g r|g r s1 s1' M IH Hne M' IH'];
    intros k s2 a Hk.
  - exists a. exact Hk.
  - exists a. simpl. rewrite Hp. exact Hk.
  - simpl. rewrite <- app_assoc.
    destruct (IH2 k s2 a Hk) as (a' & H2).
    apply (IH1 (m r2 k) (s1' ++ s2) a' H2).
  - simpl. destruct (IH k s2 a Hk) as (a' & ->). exists a'. reflexivity.
  - simpl. destruct (IH k s2 a Hk) as (a' & H).
    destruct (m r1 k (s1 ++ s2)) as [b|]; [exists b|exists a']; auto.
  - rewrite m_star_unfold. simpl. rewrite Hk.
    destruct g; [|exists a; reflexivity].
    match goal with |- exists a', orelse ?x _ = _ => destruct x as [b|] end;
      [exists b|exists a]; reflexivity.
  - rewrite m_star_unfold. cbv zeta. rewrite <- app_assoc.
    destruct (IH' k s2 a Hk) as (a' & H').
    destruct (IH (fun s' => if (length s' <? length (s1 ++ s1' ++ s2))%nat
                            then m (Star g r) k s' else None)
                 (s1' ++ s2) a') as (a'' & H'').
    { destruct s1 as [|c s1]; [congruence|].
      assert (E : (length (s1' ++ s2)
                   <? length ((c :: s1) ++ s1' ++ s2))%nat = true).
      { apply Nat.ltb_lt. simpl. rewrite !length_app. lia. }
      cbv beta. rewrite E. exact H'. }
    rewrite H''.
    destruct g; simpl; [exists a''; reflexivity|].
    destruct (k (s1 ++ s1' ++ s2)) as [b|]; [exists b|exists a''];
      reflexivity.
Qed.

Corollary m_none_iff r k s :
  m r k s = None <->
  (forall s1 s2, s = s1 ++ s2 -> Matches r s1 -> k s2 = None).
Proof.
  split.
  - intros H s1 s2 -> M. destruct (k s2) as [a|] eqn:E; [|reflexivity].
    destruct (m_complete r s1 M k s2 _ E) as (a' & H'). congruence.
  - intros H. destruct (m r k s) as [a|] eqn:E; [|reflexivity].
    apply m_sound in E. destruct E as (s1 & s2 & Hs & M & Hk).
    rewrite (H s1 s2 Hs M) in Hk. discriminate.
Qed.
End Soundness.

(** ** Sections of a document *)

Lemma matchesb_true r s : matchesb r s = true -> Matches r s.
Proof.
  unfold matchesb. destruct (m r at_end s) as [u|] eqn:E; [|discriminate].
  intros _. apply m_sound in E. destruct E as (s1 & s2 & -> & M & H).
  destruct s2; [|discriminate]. rewrite app_nil_r. exact M.
Qed.

Lemma matches_any s : Matches (Star false (Chr any_char)) s.
Proof.
  induction s as [|c s IH]; [constructor|].
  change (c :: s) with ([c] ++ s). constructor; auto; [|discriminate].
  constructor. unfold any_char. destruct (is_space c); reflexivity.
Qed.

Lemma firstn_length_app (c s2 : jsstring) :
  firstn (length (c ++ s2) - length s2) (c ++ s2) = c.
Proof.
  rewrite length_app. replace (length c + length s2 - length s2)%nat
    with (length c + 0)%nat by lia.
  rewrite firstn_app_2. simpl. apply app_nil_r.
Qed.

Lemma match_at_sound p s c :
  match_at p s = Some c ->
  exists b a post,
    s = b ++ c ++ a ++ post
    /\ Matches (before p) b /\ Matches (group p) c /\ Matches (after p) a.
Proof.
  unfold match_at. intros H.
  apply m_sound in H. destruct H as (b & s1 & -> & Mb & H).
  apply m_sound in H. destruct H as (c' & s2 & -> & Mc & H).
  apply m_sound in H. destruct H as (a & post & -> & Ma & H).
  rewrite firstn_length_app in H. injection H as <-.
  exists b, a, post. auto.
Qed.

Lemma match_at_complete p b c a post :
  Matches (before p) b -> Matches (group p) c -> Matches (after p) a ->
  exists c', match_at p (b ++ c ++ a ++ post) = Some c'.
Proof.
  intros Mb Mc Ma. unfold match_at.
  destruct (m_complete _ _ _ Ma
              (fun _ => Some (firstn (length (c ++ a ++ post)
                                      - length (a ++ post)) (c ++ a ++ post)))
              post _ eq_refl) as (x & Hx).
  destruct (m_complete _ _ _ Mc
              (fun s2 => m (after p)
                 (fun _ => Some (firstn (length (c ++ a ++ post) - length s2)
                                        (c ++ a ++ post))) s2)
              (a ++ post) _ Hx) as (y & Hy).
  exact (m_complete _ _ _ Mb
           (fun s1 =>
              m (group p)
                (fun s2 =>
                   m (after p)
                     (fun _ => Some (firstn (length s1 - length s2) s1)) s2)
                s1)
           (c ++ a ++ post) _ Hy).
Qed.

(** A lazy [[\s\S]*?] stops at the first position the continuation
    accepts. *)
Lemma lazy_any_first (A : Type) (k : jsstring -> option A) s a :
  m (Star false (Chr any_char)) k s = Some a ->
  exists c rest,
    s = c ++ rest /\ k rest = Some a
    /\ forall c1 c2, c = c1 ++ c2 -> c2 <> [] -> k (c2 ++ rest) = None.
Proof.
  revert a. induction s as [|x s IH]; intros a H;
    rewrite m_star_unfold in H; cbv zeta in H;
    apply orelse_some in H; destruct H as [H|[Hn H]].
  - exists [], []. repeat split; auto.
    intros c1 c2 E. symmetry in E. apply app_eq_nil in E.
    destruct E as [_ ->]. congruence.
  - discriminate.
  - exists [], (x :: s). repeat split; auto.
    intros c1 c2 E. symmetry in E. apply app_eq_nil in E.
    destruct E as [_ ->]. congruence.
  - cbn [m] in H. destruct (any_char x); [|discriminate].
    assert (E : (length s <? length (x :: s))%nat = true)
      by (apply Nat.ltb_lt; simpl; lia).
    rewrite E in H.
    apply IH in H. destruct H as (c & rest & -> & Hk & Hmin).
    exists (x :: c), rest. repeat split; auto.
    intros c1 c2 E' Hne. destruct c1 as [|y c1]; simpl in E'.
    + subst c2. exact Hn.
    + injection E' as _ E'. eapply Hmin; eauto.
Qed.

Lemma match_at_lazy p s c :
  lazy_group p -> match_at p s = Some c ->
  exists b a post,
    s = b ++ c ++ a ++ post
    /\ Matches (before p) b /\ Matches (after p) a
    /\ shortest_capture p c (a ++ post).
Proof.
  unfold match_at, lazy_group. intros -> H.
  apply m_sound in H. destruct H as (b & s1 & -> & Mb & H).
  apply lazy_any_first in H. destruct H as (c' & rest & -> & Hk & Hmin).
  apply m_sound in Hk. destruct Hk as (a & post & -> & Ma & Hk).
  rewrite firstn_length_app in Hk. injection Hk as <-.
  exists b, a, post. repeat split; auto.
  intros c1 c2 u v E Hne Huv Mu.
  specialize (Hmin c1 c2 E Hne).
  rewrite m_none_iff in Hmin. specialize (Hmin u v Huv Mu). discriminate.
Qed.

(** [str_match] returns the capture of a match at the leftmost position
    where the pattern matches. *)
Lemma str_match_leftmost p s c :
  str_match p s = Some c ->
  exists pre rest,
    s = pre ++ rest /\ match_at p rest = Some c
    /\ forall pre' rest',
        s = pre' ++ rest' -> (length pre' < length pre)%nat ->
        match_at p rest' = None.
Proof.
  induction s as [|x s IH]; simpl; intros H.
  - destruct (match_at p []) as [c'|] eqn:E; [|discriminate].
    injection H as ->.
    exists [], []. repeat split; auto. simpl. intros; lia.
  - destruct (match_at p (x :: s)) as [c'|] eqn:E.
    + injection H as ->.
      exists [], (x :: s). repeat split; auto. simpl. intros; lia.
    + apply IH in H. destruct H as (pre & rest & -> & Hm & Hl).
      exists (x :: pre), rest. repeat split; auto.
      intros pre' rest' E' Hlt. destruct pre' as [|y pre'].
      * simpl in E'. subst rest'. exact E.
      * simpl in E'. injection E' as _ E'. apply (Hl pre' rest' E').
        simpl in Hlt. lia.
Qed.

Lemma str_match_complete p raw c :
  has_section p raw c -> exists c', str_match p raw = Some c'.
Proof.
  intros (pre & b & a & post & -> & Mb & Mc & Ma).
  destruct (match_at_complete p b c a post Mb Mc Ma) as (c' & H).
  induction pre as [|x pre IH].
  - exists c'. simpl app.
    destruct (b ++ c ++ a ++ post); simpl; simpl in H; rewrite H; reflexivity.
  - destruct IH as (c'' & IH). simpl.
    destruct (match_at p (x :: pre ++ b ++ c ++ a ++ post)) as [d|];
      [exists d|exists c'']; auto.
Qed.

Lemma str_match_none p raw :
  str_match p raw = None -> forall c, ~ has_section p raw c.
Proof.
  intros H c Hs. apply str_match_complete in Hs.
  destruct Hs as (c' & Hs). congruence.
Qed.

Lemma str_match_spec p raw c :
  lazy_group p -> str_match p raw = Some c -> leftmost_section p raw c.
Proof.
  intros Hg H. apply str_match_leftmost in H.
  destruct H as (pre & rest & -> & Hm & Hl).
  apply match_at_lazy in Hm; [|exact Hg].
  destruct Hm as (b & a & post & -> & Mb & Ma & Hs).
  exists pre, b, a, post. repeat split; auto.
  intros pre' b' c' a' post' E Mb' Mc' Ma'.
  destruct (Nat.le_gt_cases (length pre) (length pre')) as [|Hlt]; [assumption|].
  specialize (Hl pre' _ E Hlt).
  destruct (match_at_complete p b' c' a' post' Mb' Mc' Ma') as (d & Hd).
  congruence.
Qed.

Lemma leftmost_has_section p raw c :
  lazy_group p -> leftmost_section p raw c -> has_section p raw c.
Proof.
  intros Hg (pre & b & a & post & E & Mb & Ma & _).
  exists pre, b, a, post. repeat split; auto.
  rewrite Hg. apply matches_any.
Qed.

(** ** indexOf *)

Lemma starts_with_spec needle s :
  starts_with needle s = true <-> exists b, s = needle ++ b.
Proof.
  revert s. induction needle as [|a needle IH]; intros s; simpl.
  - split; eauto.
  - destruct s as [|b s].
    + split; [discriminate|]. intros (x & H). discriminate.
    + rewrite andb_true_iff, N.eqb_eq, IH. split.
      * intros (-> & x & ->). eauto.
      * intros (x & H). injection H as -> ->. eauto.
Qed.

Lemma indexOf_from_spec needle s i :
  (0 <= i)%Z ->
  (indexOf_from needle s i = (-1)%Z /\ ~ occurs needle s)
  \/ exists a b,
      s = a ++ needle ++ b
      /\ indexOf_from needle s i = (i + Z.of_nat (length a))%Z
      /\ forall a' b', s = a' ++ needle ++ b' ->
                       (length a <= length a')%nat.
Proof.
  revert i. induction s as [|x s IH]; intros i Hi; simpl.
  - destruct (starts_with needle []) eqn:E.
    + right. apply starts_with_spec in E. destruct E as (b & E).
      exists [], b. repeat split; auto; [simpl; lia|]. simpl. intros; lia.
    + left. split; [reflexivity|]. intros (a & b & H).
      destruct a; [|discriminate]. simpl in H.
      assert (starts_with needle [] = true)
        by (apply starts_with_spec; eauto). congruence.
  - destruct (starts_with needle (x :: s)) eqn:E.
    + right. apply starts_with_spec in E. destruct E as (b & E).
      exists [], b. repeat split; auto; [simpl; lia|]. simpl. intros; lia.
    + destruct (IH (i + 1)%Z ltac:(lia)) as [[H Hn]|(a & b & -> & H & Hl)].
      * left. split; [assumption|]. intros (a & b & H').
        destruct a as [|y a]; simpl in H'.
        -- assert (starts_with needle (x :: s) = true)
             by (apply starts_with_spec; eauto). congruence.
        -- injection H' as _ H'. apply Hn. exists a, b. exact H'.
      * right. exists (x :: a), b. repeat split; auto.
        -- rewrite H. simpl length. lia.
        -- intros a' b' H'. destruct a' as [|y a']; simpl in H'.
           ++ assert (starts_with needle (x :: a ++ needle ++ b) = true)
                by (apply starts_with_spec; eauto). congruence.
           ++ injection H' as _ H'. apply Hl in H'. simpl. lia.
Qed.

Lemma indexOf_absent needle s :
  ~ occurs needle s -> indexOf needle s = (-1)%Z.
Proof.
  intros H. unfold indexOf.
  destruct (indexOf_from_spec needle s 0%Z ltac:(lia))
    as [[E _]|(a & b & E & _)]; [assumption|].
  exfalso. apply H. exists a, b. exact E.
Qed.

Lemma indexOf_first needle a b :
  (forall a' b', a ++ needle ++ b = a' ++ needle ++ b' ->
                 (length a <= length a')%nat) ->
  indexOf needle (a ++ needle ++ b) = Z.of_nat (length a).
Proof.
  intros Hfirst. unfold indexOf.
  destruct (indexOf_from_spec needle (a ++ needle ++ b) 0%Z ltac:(lia))
    as [[_ Hn]|(a2 & b2 & E & H & Hl)].
  - exfalso. apply Hn. exists a, b. reflexivity.
  - rewrite H. specialize (Hfirst _ _ E). specialize (Hl _ _ eq_refl). lia.
Qed.

(** * The fallback chain of extractTextBody *)

Lemma plainRe_lazy : lazy_group plainRe.
Proof. reflexivity. Qed.

Lemma htmlRe_lazy : lazy_group htmlRe.
Proof. reflexivity. Qed.

Lemma no_section_no_match p raw :
  lazy_group p -> (forall c, ~ has_section p raw c) -> str_match p raw = None.
Proof.
  intros Hg H. destruct (str_match p raw) as [c|] eqn:E; [|reflexivity].
  exfalso. apply (H c). apply leftmost_has_section; [assumption|].
  apply str_match_spec; assumption.
Qed.

(** The captured text of a plain section runs up to the first boundary
    marker: it contains no line feed followed by two dashes. *)
Lemma plain_capture_no_marker c rest :
  shortest_capture plainRe c rest -> ~ occurs (LF :: lit "--") c.
Proof.
  intros Hs (x & y & ->).
  apply (Hs x ((LF :: lit "--") ++ y) (LF :: lit "--") (y ++ rest)).
  - reflexivity.
  - discriminate.
  - rewrite <- app_assoc. reflexivity.
  - apply matchesb_true. vm_compute. reflexivity.
Qed.

(** Header-boundary branch, when the first blank line is not at the very
    start of the document. *)
Lemma extract_header_fallback a b :
  (forall c, ~ has_section plainRe (a ++ blank_line ++ b) c) ->
  (forall c, ~ has_section htmlRe (a ++ blank_line ++ b) c) ->
  (forall a' b', a ++ blank_line ++ b = a' ++ blank_line ++ b' ->
                 (length a <= length a')%nat) ->
  a <> [] ->
  extractTextBody (a ++ blank_line ++ b) = cleanBody b.
Proof.
  intros Hp Hh Hfirst Hne. unfold extractTextBody.
  rewrite (no_section_no_match _ _ plainRe_lazy Hp).
  rewrite (no_section_no_match _ _ htmlRe_lazy Hh).
  rewrite (indexOf_first _ _ _ Hfirst). cbv zeta.
  destruct a as [|x a]; [congruence|].
  replace (0 <? Z.of_nat (length (x :: a)))%Z with true
    by (symmetry; apply Z.ltb_lt; simpl length; lia).
  unfold slice_from.
  replace (Z.to_nat (Z.of_nat (length (x :: a)) + 4))
    with (length ((x :: a) ++ blank_line))
    by (rewrite length_app; simpl; lia).
  rewrite (app_assoc (x :: a) blank_line b).
  rewrite skipn_app, skipn_all, Nat.sub_diag. reflexivity.
Qed.

(** C5.  With no text/plain section, no text/html section and no blank
    line, the result is the first 500 code units of the document,
    unchanged; the whole document when it has at most 500. *)
Theorem extract_last_resort raw :
  (forall c, ~ has_section plainRe raw c) ->
  (forall c, ~ has_section htmlRe raw c) ->
  ~ occurs blank_line raw ->
  extractTextBody raw = firstn 500 raw
  /\ (length (extractTextBody raw) <= 500)%nat
  /\ ((length raw <= 500)%nat -> extractTextBody raw = raw).
Proof.
  intros Hp Hh Hb.
  assert (E : extractTextBody raw = firstn 500 raw).
  { unfold extractTextBody.
    rewrite (no_section_no_match _ _ plainRe_lazy Hp).
    rewrite (no_section_no_match _ _ htmlRe_lazy Hh).
    rewrite (indexOf_absent _ _ Hb). reflexivity. }
  rewrite E. repeat split.
  - apply firstn_le_length.
  - intros Hl. apply firstn_all2. exact Hl.
Qed.

(** * Global replacement *)

Lemma replace_loop_fuel r f n n' s :
  (length s < n)%nat -> (length s < n')%nat ->
  replace_loop n r f s = replace_loop n' r f s.
Proof.
  revert n' s. induction n as [|n IH]; intros n' s Hn Hn'; [lia|].
  destruct n' as [|n']; [lia|]. simpl.
  destruct (m r (@Some jsstring) s) as [rest|] eqn:E.
  - destruct (length rest <? length s)%nat eqn:L.
    + apply Nat.ltb_lt in L. f_equal. apply IH; lia.
    + destruct s as [|c s]; [reflexivity|]. simpl in Hn, Hn'.
      do 2 f_equal. apply IH; lia.
  - destruct s as [|c s]; [reflexivity|]. simpl in Hn, Hn'.
    f_equal. apply IH; lia.
Qed.

(** One step of the replacement loop. *)
Lemma replace_all_unfold r f s :
  replace_all r f s =
  match m r (@Some jsstring) s with
  | Some rest =>
      if (length rest <? length s)%nat
      then f (firstn (length s - length rest) s) ++ replace_all r f rest
      else match s with
           | [] => f []
           | c :: s' => f [] ++ c :: replace_all r f s'
           end
  | None =>
      match s with
      | [] => []
      | c :: s' => c :: replace_all r f s'
      end
  end.
Proof.
  unfold replace_all at 1. simpl.
  destruct (m r (@Some jsstring) s) as [rest|] eqn:E.
  - destruct (length rest <? length s)%nat eqn:L.
    + apply Nat.ltb_lt in L. f_equal. apply replace_loop_fuel; lia.
    + destruct s as [|c s]; reflexivity.
  - destruct s as [|c s]; reflexivity.
Qed.

Lemma replace_all_nil r f :
  m r (@Some jsstring) [] = None -> replace_all r f [] = [].
Proof. intros H. rewrite replace_all_unfold, H. reflexivity. Qed.

Lemma replace_all_skip r f c s :
  m r (@Some jsstring) (c :: s) = None ->
  replace_all r f (c :: s) = c :: replace_all r f s.
Proof. intros H. rewrite replace_all_unfold, H. reflexivity. Qed.

Lemma replace_all_hit r f t rest :
  t <> [] ->
  m r (@Some jsstring) (t ++ rest) = Some rest ->
  replace_all r f (t ++ rest) = f t ++ replace_all r f rest.
Proof.
  intros Hne H. rewrite replace_all_unfold, H.
  assert (L : (length rest <? length (t ++ rest))%nat = true).
  { apply Nat.ltb_lt. rewrite length_app. destruct t; [congruence|].
    simpl. lia. }
  rewrite L, firstn_length_app. reflexivity.
Qed.

Lemma no_match_tail r c u : no_match r (c :: u) -> no_match r u.
Proof. intros H a b ->. apply (H (c :: a) b). reflexivity. Qed.

Lemma no_match_cons r c u :
  m r (@Some jsstring) (c :: u) = None -> no_match r u ->
  no_match r (c :: u).
Proof.
  intros H Hu a b E. destruct a as [|x a]; simpl in E.
  - subst b. exact H.
  - injection E as _ E. apply (Hu a b E).
Qed.

Lemma replace_all_no_match r f u : no_match r u -> replace_all r f u = u.
Proof.
  induction u as [|c u IH]; intros H.
  - apply replace_all_nil. apply (H [] []). reflexivity.
  - rewrite replace_all_skip; [|apply (H [] (c :: u)); reflexivity].
    f_equal. apply IH. eapply no_match_tail; eauto.
Qed.

(** Induction on the length of a string. *)
Lemma length_induction (P : jsstring -> Prop) :
  (forall s, (forall t, (length t < length s)%nat -> P t) -> P s) ->
  forall s, P s.
Proof.
  intros H s. remember (length s) as n eqn:E. revert s E.
  induction n as [n IH] using lt_wf_ind. intros s ->.
  apply H. intros t Ht. apply (IH (length t) Ht t eq_refl).
Qed.

(** Inversion of [Matches] on the star-free constructors. *)
Lemma matches_eps_inv s : Matches Eps s -> s = [].
Proof. inversion 1; reflexivity. Qed.

Lemma matches_chr_inv p s :
  Matches (Chr p) s -> exists c, s = [c] /\ p c = true.
Proof. inversion 1; subst; eauto. Qed.

Lemma matches_seq_inv r1 r2 s :
  Matches (Seq r1 r2) s ->
  exists s1 s2, s = s1 ++ s2 /\ Matches r1 s1 /\ Matches r2 s2.
Proof. inversion 1; subst; eauto. Qed.

Lemma matches_alt_inv r1 r2 s :
  Matches (Alt r1 r2) s -> Matches r1 s \/ Matches r2 s.
Proof. inversion 1; subst; auto. Qed.

Lemma matches_star_chr_inv g p s :
  Matches (Star g (Chr p)) s -> Forall (fun c => p c = true) s.
Proof.
  intros H. remember (Star g (Chr p)) as r eqn:E.
  induction H as [| | | | | |g' r' s1 s2 M1 _ Hne M2 IH]; try discriminate.
  - constructor.
  - injection E as -> ->. apply matches_chr_inv in M1.
    destruct M1 as (c & -> & Hc). constructor; auto.
Qed.

Lemma matches_star_chr g p s :
  Forall (fun c => p c = true) s -> Matches (Star g (Chr p)) s.
Proof.
  induction 1 as [|c s Hc _ IH]; [constructor|].
  change (c :: s) with ([c] ++ s). constructor; auto. discriminate.
Qed.

Ltac inv_matches :=
  repeat match goal with
    | H : Matches Eps _ |- _ => apply matches_eps_inv in H; subst
    | H : Matches (Chr _) _ |- _ =>
        apply matches_chr_inv in H; destruct H as (? & -> & H)
    | H : Matches (Seq _ _) _ |- _ =>
        apply matches_seq_inv in H; destruct H as (? & ? & -> & ? & ?)
    | H : Matches (Alt _ _) _ |- _ =>
        apply matches_alt_inv in H; destruct H as [H|H]
    | H : Matches (Star _ (Chr _)) _ |- _ =>
        apply matches_star_chr_inv in H
    | H : (_ =? _) = true |- _ => apply N.eqb_eq in H; subst
    end.

(** * Whitespace normalisation *)

Lemma m_chr_cons (A : Type) p (k : jsstring -> option A) c s :
  m (Chr p) k (c :: s) = if p c then k s else None.
Proof. reflexivity. Qed.

Lemma m_seq (A : Type) r1 r2 (k : jsstring -> option A) s :
  m (Seq r1 r2) k s = m r1 (m r2 k) s.
Proof. reflexivity. Qed.

Lemma ltb_tail (c : N) (s : jsstring) :
  (length s <? length (c :: s))%nat = true.
Proof. apply Nat.ltb_lt. simpl. lia. Qed.

Lemma star_space_greedy s :
  m (Star true (Chr is_space)) (@Some jsstring) s = Some (trim_start s).
Proof.
  induction s as [|c s IH]; rewrite m_star_unfold; cbv zeta.
  - reflexivity.
  - rewrite m_chr_cons, ltb_tail, IH. simpl.
    destruct (is_space c); reflexivity.
Qed.

Lemma spacesRe_at s :
  m spacesRe (@Some jsstring) s =
  match s with
  | c :: s' => if is_space c then Some (trim_start s') else None
  | [] => None
  end.
Proof.
  unfold spacesRe, Plus. rewrite m_seq.
  destruct s as [|c s]; [reflexivity|]. rewrite m_chr_cons.
  destruct (is_space c); [|reflexivity]. apply star_space_greedy.
Qed.

Lemma trim_start_length s : (length (trim_start s) <= length s)%nat.
Proof.
  induction s as [|c s IH]; simpl; [lia|].
  destruct (is_space c); simpl; lia.
Qed.

Lemma trim_start_suffix s : exists a, s = a ++ trim_start s.
Proof.
  induction s as [|c s (a & IH)]; simpl; [exists []; reflexivity|].
  destruct (is_space c).
  - exists (c :: a). simpl. f_equal. exact IH.
  - exists []. reflexivity.
Qed.

Lemma collapse_cons c s :
  collapse_spaces (c :: s) =
  if is_space c then SP :: collapse_spaces (trim_start s)
  else c :: collapse_spaces s.
Proof.
  unfold collapse_spaces. rewrite replace_all_unfold, spacesRe_at.
  destruct (is_space c); [|reflexivity].
  assert (E : (length (trim_start s) <? length (c :: s))%nat = true).
  { apply Nat.ltb_lt. pose proof (trim_start_length s). simpl. lia. }
  rewrite E. reflexivity.
Qed.

Lemma trim_start_head s :
  match trim_start s with [] => True | d :: _ => is_space d = false end.
Proof.
  induction s as [|c s IH]; simpl; [exact I|].
  destruct (is_space c) eqn:E; [exact IH|exact E].
Qed.

Lemma trim_start_fixed s :
  match s with [] => True | d :: _ => is_space d = false end ->
  trim_start s = s.
Proof. destruct s as [|d s]; simpl; [reflexivity|]. intros ->. reflexivity. Qed.

Lemma collapse_head s :
  match s with [] => True | d :: _ => is_space d = false end ->
  match collapse_spaces s with [] => True | d :: _ => is_space d = false end.
Proof.
  destruct s as [|d s]; [intros _; exact I|]. intros H.
  rewrite collapse_cons, H. exact H.
Qed.

Lemma collapse_single_spaced s : single_spaced (collapse_spaces s).
Proof.
  induction s as [s IH] using length_induction.
  destruct s as [|c s]; [exact I|].
  rewrite collapse_cons. destruct (is_space c) eqn:E.
  - split.
    + intros _. split; [reflexivity|].
      apply collapse_head, trim_start_head.
    + apply IH. pose proof (trim_start_length s). simpl. lia.
  - split; [congruence|]. apply IH. simpl. lia.
Qed.

Lemma collapse_fixed s : single_spaced s -> collapse_spaces s = s.
Proof.
  induction s as [|c s IH]; [reflexivity|]. intros [Hc Hs].
  rewrite collapse_cons. destruct (is_space c) eqn:E.
  - destruct (Hc eq_refl) as [-> Hd].
    rewrite (trim_start_fixed s Hd), (IH Hs). reflexivity.
  - rewrite (IH Hs). reflexivity.
Qed.

Lemma single_spaced_app_r a b : single_spaced (a ++ b) -> single_spaced b.
Proof. induction a as [|c a IH]; simpl; [auto|]. intros [_ H]. auto. Qed.

Lemma single_spaced_app_l a b : single_spaced (a ++ b) -> single_spaced a.
Proof.
  induction a as [|c a IH]; simpl; [auto|]. intros [Hc H].
  split; [|auto]. intros E. destruct (Hc E) as [-> Hd].
  split; [reflexivity|]. destruct a; [exact I|exact Hd].
Qed.

Lemma trim_end_prefix s : exists b, s = trim_end s ++ b.
Proof.
  unfold trim_end. destruct (trim_start_suffix (rev s)) as (a & H).
  exists (rev a). rewrite <- rev_app_distr, <- H, rev_involutive.
  reflexivity.
Qed.

Lemma trim_single_spaced s : single_spaced s -> single_spaced (trim s).
Proof.
  intros H. unfold trim.
  destruct (trim_start_suffix s) as (a & Ha).
  destruct (trim_end_prefix (trim_start s)) as (b & Hb).
  rewrite Ha in H. apply single_spaced_app_r in H.
  rewrite Hb in H. apply single_spaced_app_l in H. exact H.
Qed.

Lemma trim_start_snoc s c :
  is_space c = false -> trim_start (s ++ [c]) = trim_start s ++ [c].
Proof.
  intros Hc. induction s as [|d s IH]; simpl.
  - rewrite Hc. reflexivity.
  - destruct (is_space d); [exact IH|reflexivity].
Qed.

Lemma trim_end_cons c s :
  is_space c = false -> trim_end (c :: s) = c :: trim_end s.
Proof.
  intros Hc. unfold trim_end. simpl rev.
  rewrite trim_start_snoc by exact Hc.
  rewrite rev_app_distr. reflexivity.
Qed.

Lemma trim_start_idem s : trim_start (trim_start s) = trim_start s.
Proof. apply trim_start_fixed, trim_start_head. Qed.

Lemma trim_end_idem s : trim_end (trim_end s) = trim_end s.
Proof.
  unfold trim_end. rewrite rev_involutive, trim_start_idem. reflexivity.
Qed.

Lemma trim_idem s : trim (trim s) = trim s.
Proof.
  unfold trim.
  assert (E : trim_start (trim_end (trim_start s)) = trim_end (trim_start s)).
  { pose proof (trim_start_head s) as H.
    destruct (trim_start s) as [|d t]; [reflexivity|].
    rewrite (trim_end_cons d t H). simpl. rewrite H. reflexivity. }
  rewrite E. apply trim_end_idem.
Qed.

(** Collapsing and trimming is idempotent. *)
Lemma normalise_idem s :
  trim (collapse_spaces (trim (collapse_spaces s)))
  = trim (collapse_spaces s).
Proof.
  rewrite (collapse_fixed (trim (collapse_spaces s))).
  - apply trim_idem.
  - apply trim_single_spaced, collapse_single_spaced.
Qed.

(** * The clean step *)

Lemma single_spaced_in s c :
  single_spaced s -> In c s -> is_space c = true -> c = SP.
Proof.
  induction s as [|d s IH]; simpl; [tauto|].
  intros [Hd Hs] [->|Hin] E; [apply (Hd E)|auto].
Qed.

Lemma cleanBody_single_spaced s : single_spaced (cleanBody s).
Proof. apply trim_single_spaced, collapse_single_spaced. Qed.

Lemma softBreak_has_lf t : Matches softBreakRe t -> In LF t.
Proof.
  unfold softBreakRe, eol, Opt. intros H. inv_matches; simpl; auto.
Qed.

Lemma hexEscape_shape t :
  Matches hexEscapeRe t ->
  exists h1 h2, t = [61; h1; h2] /\ is_hex h1 = true /\ is_hex h2 = true.
Proof.
  unfold hexEscapeRe. intros H. inv_matches. simpl. eauto.
Qed.

Lemma no_match_intro r u :
  (forall a t b, u = a ++ t ++ b -> ~ Matches r t) -> no_match r u.
Proof.
  intros H a b ->.
  destruct (m r (@Some jsstring) b) as [rest|] eqn:E; [|reflexivity].
  apply m_sound in E. destruct E as (t & rest' & -> & M & _).
  exfalso. exact (H a t rest' eq_refl M).
Qed.

Lemma single_spaced_no_soft_break u :
  single_spaced u -> remove_soft_breaks u = u.
Proof.
  intros H. apply replace_all_no_match, no_match_intro.
  intros a t b -> M. apply softBreak_has_lf in M.
  assert (E : LF = SP); [|discriminate].
  apply (single_spaced_in _ LF H); [|reflexivity].
  apply in_or_app. right. apply in_or_app. left. exact M.
Qed.

Lemma no_hex_escape_fixed u : no_hex_escape u -> decode_hex_escapes u = u.
Proof.
  intros H. apply replace_all_no_match, no_match_intro.
  intros a t b -> M. apply hexEscape_shape in M.
  destruct M as (h1 & h2 & -> & H1 & H2).
  apply (H h1 h2 H1 H2). exists a, b. reflexivity.
Qed.

Lemma has_hex_escape_spec u :
  has_hex_escape u = false <-> no_hex_escape u.
Proof.
  unfold no_hex_escape. induction u as [|c1 t IH]; simpl.
  - split; [|reflexivity]. intros _ h1 h2 _ _ (a & b & E).
    destruct a; discriminate.
  - rewrite orb_false_iff, IH. split.
    + intros [H0 Ht] h1 h2 H1 H2 (a & b & E).
      destruct a as [|x a]; simpl in E.
      * injection E as -> ->. simpl in H0. rewrite H1, H2 in H0.
        discriminate.
      * injection E as _ ->. apply (Ht h1 h2 H1 H2). exists a, b.
        reflexivity.
    + intros H. split.
      * destruct t as [|c2 [|c3 t']]; try reflexivity.
        destruct (c1 =? 61) eqn:E1; [|reflexivity].
        destruct (is_hex c2) eqn:E2; [|reflexivity].
        destruct (is_hex c3) eqn:E3; [|reflexivity].
        apply N.eqb_eq in E1. subst c1. exfalso.
        apply (H c2 c3 E2 E3). exists [], t'. reflexivity.
      * intros h1 h2 H1 H2 (a & b & ->). apply (H h1 h2 H1 H2).
        exists (c1 :: a), b. reflexivity.
Qed.

(** Lengths: a hex escape shrinks under decoding, and no step of the
    clean step makes a string longer. *)
Lemma hexEscape_at s rest :
  m hexEscapeRe (@Some jsstring) s = Some rest ->
  exists h1 h2, s = 61 :: h1 :: h2 :: rest.
Proof.
  intros H. apply m_sound in H. destruct H as (t & v & -> & M & H).
  injection H as ->. apply hexEscape_shape in M.
  destruct M as (h1 & h2 & -> & _). exists h1, h2. reflexivity.
Qed.

Lemma hex_repl_length t : length (hex_repl t) = 1%nat.
Proof. reflexivity. Qed.

Lemma decode_hex_hit h1 h2 rest :
  m hexEscapeRe (@Some jsstring) ([61; h1; h2] ++ rest) = Some rest ->
  length (decode_hex_escapes ([61; h1; h2] ++ rest))
  = S (length (decode_hex_escapes rest)).
Proof.
  intros E. unfold decode_hex_escapes.
  rewrite (replace_all_hit _ _ [61; h1; h2] rest ltac:(discriminate) E).
  rewrite length_app, hex_repl_length. reflexivity.
Qed.

Lemma decode_hex_length s :
  (length (decode_hex_escapes s) <= length s)%nat.
Proof.
  pattern s. apply length_induction. clear s. intros s IH.
  destruct (m hexEscapeRe (@Some jsstring) s) as [rest|] eqn:E.
  - destruct (hexEscape_at _ _ E) as (h1 & h2 & ->).
    change (61 :: h1 :: h2 :: rest) with ([61; h1; h2] ++ rest) in *.
    rewrite (decode_hex_hit _ _ _ E).
    specialize (IH rest ltac:(simpl; lia)). simpl. lia.
  - unfold decode_hex_escapes in *. destruct s as [|c s].
    + rewrite replace_all_nil by exact E. simpl. lia.
    + rewrite replace_all_skip by exact E. simpl.
      specialize (IH s ltac:(simpl; lia)). lia.
Qed.

Lemma decode_hex_shrinks s h1 h2 :
  is_hex h1 = true -> is_hex h2 = true -> occurs [61; h1; h2] s ->
  (length (decode_hex_escapes s) < length s)%nat.
Proof.
  intros H1 H2 (a & b & ->). induction a as [|c a IH].
  - assert (E : m hexEscapeRe (@Some jsstring) ([61; h1; h2] ++ b) = Some b).
    { unfold hexEscapeRe. cbn [m app]. change (61 =? 61) with true.
      cbv iota. rewrite H1, H2. reflexivity. }
    change ([] ++ [61; h1; h2] ++ b) with ([61; h1; h2] ++ b).
    rewrite (decode_hex_hit _ _ _ E).
    pose proof (decode_hex_length b). simpl. lia.
  - destruct (m hexEscapeRe (@Some jsstring) ((c :: a) ++ [61; h1; h2] ++ b))
      as [rest|] eqn:E.
    + destruct (hexEscape_at _ _ E) as (x1 & x2 & E'). rewrite E' in *.
      change (61 :: x1 :: x2 :: rest) with ([61; x1; x2] ++ rest) in *.
      rewrite (decode_hex_hit _ _ _ E).
      pose proof (decode_hex_length rest). simpl. lia.
    + unfold decode_hex_escapes in *.
      change ((c :: a) ++ [61; h1; h2] ++ b)
        with (c :: a ++ [61; h1; h2] ++ b) in *.
      rewrite replace_all_skip by exact E. simpl. simpl in IH. lia.
Qed.

Lemma collapse_length s : (length (collapse_spaces s) <= length s)%nat.
Proof.
  pattern s. apply length_induction. clear s. intros s IH.
  destruct s as [|c s]; [reflexivity|]. rewrite collapse_cons.
  pose proof (trim_start_length s) as Ht.
  destruct (is_space c); simpl.
  - specialize (IH (trim_start s) ltac:(simpl; lia)). lia.
  - specialize (IH s ltac:(simpl; lia)). lia.
Qed.

Lemma trim_length s : (length (trim s) <= length s)%nat.
Proof.
  unfold trim, trim_end. rewrite length_rev.
  pose proof (trim_start_length (rev (trim_start s))) as H1.
  rewrite length_rev in H1. pose proof (trim_start_length s). lia.
Qed.

(** C3 (counterexample).  The clean step decodes once more each time it
    is applied: [=3D41] cleans to [=41], which cleans to [A]. *)
Lemma cleanBody_not_idempotent :
  cleanBody (lit "=3D41") = lit "=41"
  /\ cleanBody (cleanBody (lit "=3D41")) = lit "A"
  /\ cleanBody (cleanBody (lit "=3D41")) <> cleanBody (lit "=3D41").
Proof. vm_compute. repeat split; discriminate. Qed.

(** C3 (amended).  Collapsing and trimming whitespace is idempotent, and
    the clean step returns an already cleaned string unchanged when that
    string holds no quoted-printable escape [=XX]; when it holds one, the
    clean step changes it. *)
Theorem cleanBody_idempotent_without_escapes s :
  trim (collapse_spaces (trim (collapse_spaces s)))
  = trim (collapse_spaces s)
  /\ (no_hex_escape (cleanBody s) ->
      cleanBody (cleanBody s) = cleanBody s)
  /\ (~ no_hex_escape (cleanBody s) ->
      cleanBody (cleanBody s) <> cleanBody s).
Proof.
  split; [apply normalise_idem|]. split.
  - intros H. unfold cleanBody at 1.
    rewrite (single_spaced_no_soft_break _ (cleanBody_single_spaced s)).
    rewrite (no_hex_escape_fixed _ H).
    apply normalise_idem.
  - intros H E.
    assert (L : (length (cleanBody (cleanBody s)) < length (cleanBody s))%nat);
      [|rewrite E in L; lia].
    clear E. unfold cleanBody at 1.
    rewrite (single_spaced_no_soft_break _ (cleanBody_single_spaced s)).
    destruct (has_hex_escape (cleanBody s)) eqn:B.
    + assert (Hx : exists h1 h2, is_hex h1 = true /\ is_hex h2 = true
                                 /\ occurs [61; h1; h2] (cleanBody s)).
      { clear H. revert B. generalize (cleanBody s) as u.
        induction u as [|c1 t IH]; simpl; [discriminate|].
        intros B. apply orb_true_iff in B. destruct B as [B|B].
        - destruct t as [|c2 [|c3 t']]; try discriminate.
          apply andb_true_iff in B. destruct B as [B B3].
          apply andb_true_iff in B. destruct B as [B1 B2].
          apply N.eqb_eq in B1. subst c1.
          exists c2, c3. repeat split; auto. exists [], t'. reflexivity.
        - destruct (IH B) as (h1 & h2 & H1 & H2 & a & b & ->).
          exists h1, h2. repeat split; auto. exists (c1 :: a), b.
          reflexivity. }
      destruct Hx as (h1 & h2 & H1 & H2 & Ho).
      pose proof (decode_hex_shrinks _ _ _ H1 H2 Ho) as Hd.
      pose proof (collapse_length (decode_hex_escapes (cleanBody s))).
      pose proof (trim_length
                    (collapse_spaces (decode_hex_escapes (cleanBody s)))).
      lia.
    + exfalso. apply H. apply has_hex_escape_spec. exact B.
Qed.

Lemma cleanBody_idempotent_witness :
  no_hex_escape (cleanBody (lit "a  b=3Dc "))
  /\ cleanBody (cleanBody (lit "a  b=3Dc ")) = cleanBody (lit "a  b=3Dc ").
Proof.
  assert (H : no_hex_escape (cleanBody (lit "a  b=3Dc ")))
    by (apply has_hex_escape_spec; vm_compute; reflexivity).
  split; [exact H|].
  exact (proj1 (proj2 (cleanBody_idempotent_without_escapes
                         (lit "a  b=3Dc "))) H).
Defined.

(** ** Soft line breaks *)

Lemma softBreak_at s :
  m softBreakRe (@Some jsstring) s =
  match s with
  | c :: s' =>
      if 61 =? c then
        orelse
          (match s' with
           | c2 :: s2 =>
               if 13 =? c2 then
                 match s2 with
                 | c3 :: s3 => if 10 =? c3 then Some s3 else None
                 | [] => None
                 end
               else None
           | [] => None
           end)
          (match s' with
           | c2 :: s2 => if 10 =? c2 then Some s2 else None
           | [] => None
           end)
      else None
  | [] => None
  end.
Proof. destruct s as [|c [|c2 [|c3 s]]]; reflexivity. Qed.

(** A soft break found in [a] followed by [=...] is found in [a] alone,
    and conversely: no match straddles the start of the next soft break. *)
Lemma softBreak_local a w :
  a <> [] ->
  (m softBreakRe (@Some jsstring) (a ++ 61 :: w) = None
   /\ m softBreakRe (@Some jsstring) a = None)
  \/ exists t a',
      a = t ++ a' /\ t <> []
      /\ m softBreakRe (@Some jsstring) (a ++ 61 :: w) = Some (a' ++ 61 :: w)
      /\ m softBreakRe (@Some jsstring) a = Some a'.
Proof.
  intros Hne. rewrite !softBreak_at.
  destruct a as [|x a]; [congruence|]. simpl app; cbv beta iota.
  destruct (61 =? x) eqn:Ex; [|left; split; reflexivity].
  destruct a as [|y a]; simpl app; cbv beta iota.
  - left. split; reflexivity.
  - destruct (13 =? y) eqn:E13.
    + apply N.eqb_eq in E13. subst y.
      destruct a as [|z a]; simpl app; cbv beta iota.
      * left. split; reflexivity.
      * destruct (10 =? z) eqn:E10.
        -- right. exists [x; 13; z], a. repeat split; discriminate.
        -- left. split; reflexivity.
    + destruct (10 =? y) eqn:E10.
      * right. exists [x; y], a. repeat split; discriminate.
      * left. split; reflexivity.
Qed.

Lemma softBreak_hit t b :
  soft_break t -> m softBreakRe (@Some jsstring) (t ++ b) = Some b.
Proof. intros [->| ->]; reflexivity. Qed.

(** Every soft line break of the input is removed. *)
Lemma remove_soft_breaks_app a t b :
  soft_break t ->
  remove_soft_breaks (a ++ t ++ b)
  = remove_soft_breaks a ++ remove_soft_breaks b.
Proof.
  intros Ht. pattern a. apply length_induction. clear a. intros a IH.
  unfold remove_soft_breaks in *.
  destruct a as [|x a].
  - simpl app. rewrite replace_all_hit.
    + reflexivity.
    + destruct Ht as [->| ->]; discriminate.
    + apply softBreak_hit, Ht.
  - assert (Hw : exists w, t ++ b = 61 :: w)
      by (destruct Ht as [->| ->]; simpl; eauto).
    destruct Hw as (w & Hw). rewrite Hw.
    destruct (softBreak_local (x :: a) w ltac:(discriminate))
      as [[H1 H2]|(u & a' & E & Hu & H1 & H2)].
    + simpl app in *. rewrite (replace_all_skip _ _ _ _ H1).
      rewrite (replace_all_skip _ _ _ _ H2).
      simpl. f_equal. rewrite <- Hw. apply IH. simpl. lia.
    + rewrite E in *. rewrite <- app_assoc in *.
      rewrite (replace_all_hit _ _ _ _ Hu H1).
      rewrite (replace_all_hit _ _ _ _ Hu H2).
      rewrite <- app_assoc. f_equal. rewrite <- Hw. apply IH.
      rewrite length_app. destruct u; [congruence|]. simpl. lia.
Qed.


(** * Tags and style blocks *)

Lemma not_gt_iff c : not_gt c = true <-> c <> 62.
Proof.
  unfold not_gt. rewrite negb_true_iff. split.
  - intros H ->. discriminate.
  - intros H. apply N.eqb_neq. exact H.
Qed.

Lemma forall_not_gt x : Forall (fun c => not_gt c = true) x <-> ~ In 62 x.
Proof.
  rewrite Forall_forall. split.
  - intros H Hin. apply H in Hin. discriminate.
  - intros H c Hc. apply not_gt_iff. intros ->. auto.
Qed.

Lemma matches_tag_iff t : Matches tagRe t <-> is_tag t.
Proof.
  unfold tagRe, Plus, is_tag. split.
  - intros H. inv_matches.
    match goal with
    | H1 : not_gt ?c = true, H2 : Forall _ ?l |- _ =>
        exists (c :: l); split; [reflexivity|]; split; [discriminate|];
        apply forall_not_gt; constructor; assumption
    end.
  - intros (x & -> & Hne & Hx). destruct x as [|c x]; [congruence|].
    apply forall_not_gt in Hx. inversion Hx as [|? ? Hc Hx']; subst.
    change (60 :: (c :: x) ++ [62]) with ([60] ++ ([c] ++ x) ++ [62]).
    repeat constructor; auto. apply matches_star_chr. exact Hx'.
Qed.

Lemma first_occurrence (c : N) s :
  In c s -> exists y z, s = y ++ c :: z /\ ~ In c y.
Proof.
  induction s as [|d s IH]; simpl; [tauto|].
  destruct (N.eq_dec d c) as [->|Hd].
  - intros _. exists [], s. auto.
  - intros [E|Hin]; [congruence|].
    destruct (IH Hin) as (y & z & -> & Hy).
    exists (d :: y), z. split; [reflexivity|]. simpl. tauto.
Qed.

Lemma tag_at_other c s :
  c <> 60 -> m tagRe (@Some jsstring) (c :: s) = None.
Proof.
  intros H. unfold tagRe. rewrite m_seq, m_chr_cons.
  replace (60 =? c) with false; [reflexivity|].
  symmetry. apply N.eqb_neq. congruence.
Qed.

Lemma tag_at_none s :
  m tagRe (@Some jsstring) (60 :: s) = None <-> no_tag_after s.
Proof.
  rewrite m_none_iff. unfold no_tag_after. split.
  - intros H. destruct s as [|x s]; [auto|].
    destruct (N.eq_dec x 62) as [->|Hx]; [eauto|].
    right; right. intros Hin.
    destruct (first_occurrence 62 (x :: s) Hin) as (y & z & E & Hy).
    assert (M : Matches tagRe (60 :: y ++ [62])).
    { apply matches_tag_iff. exists y. repeat split; auto.
      intros ->. simpl in E. congruence. }
    specialize (H (60 :: y ++ [62]) z).
    rewrite E in H. simpl in H. rewrite <- app_assoc in H.
    specialize (H eq_refl M). discriminate.
  - intros H t v E M. exfalso.
    apply matches_tag_iff in M. destruct M as (x & -> & Hne & Hx).
    simpl in E. injection E as E. rewrite <- app_assoc in E. simpl in E.
    destruct H as [->|[(z & ->)|H]].
    + destruct x; discriminate.
    + destruct x as [|c x]; [congruence|]. simpl in E.
      injection E as <- _. apply Hx. left. reflexivity.
    + apply H. rewrite E. apply in_or_app. right. left. reflexivity.
Qed.

Lemma tag_match_shorter s rest :
  m tagRe (@Some jsstring) s = Some rest -> (length rest < length s)%nat.
Proof.
  intros H. apply m_sound in H. destruct H as (t & v & -> & M & H).
  injection H as ->. apply matches_tag_iff in M.
  destruct M as (x & -> & _). simpl. rewrite length_app. lia.
Qed.

(** The code units of a replacement by a constant come from the input or
    from the constant. *)
Lemma in_replace_const r x s c :
  In c (replace_all r (const_repl [x]) s) -> c = x \/ In c s.
Proof.
  revert c. pattern s. apply length_induction. clear s. intros s IH c.
  rewrite replace_all_unfold.
  destruct (m r (@Some jsstring) s) as [rest|] eqn:E.
  - destruct (length rest <? length s)%nat eqn:L.
    + apply Nat.ltb_lt in L. simpl. intros [<-|H]; [auto|].
      apply (IH rest L) in H. destruct H as [H|H]; [auto|].
      right. apply m_sound in E. destruct E as (t & v & -> & _ & E).
      injection E as ->. apply in_or_app. auto.
    + destruct s as [|d s]; simpl.
      * intros [<-|[]]. auto.
      * intros [<-|[<-|H]]; auto.
        apply IH in H; [|simpl; lia]. tauto.
  - destruct s as [|d s]; simpl; [tauto|].
    intros [<-|H]; auto. apply IH in H; [|simpl; lia]. tauto.
Qed.

(** After the tag step no tag is left. *)
Lemma strip_tags_no_match s : no_match tagRe (strip_tags s).
Proof.
  pattern s. apply length_induction. clear s. intros s IH.
  unfold strip_tags in *. rewrite replace_all_unfold.
  destruct (m tagRe (@Some jsstring) s) as [rest|] eqn:E.
  - pose proof (tag_match_shorter _ _ E) as L.
    apply Nat.ltb_lt in L. rewrite L. apply Nat.ltb_lt in L.
    apply no_match_cons; [apply tag_at_other; discriminate|].
    apply IH, L.
  - destruct s as [|c s].
    + intros a b H. symmetry in H. apply app_eq_nil in H.
      destruct H as [_ ->]. reflexivity.
    + apply no_match_cons; [|apply IH; simpl; lia].
      destruct (N.eq_dec c 60) as [->|Hc]; [|apply tag_at_other, Hc].
      apply tag_at_none. apply tag_at_none in E.
      destruct E as [->|[(z & ->)|H]].
      * left. reflexivity.
      * right; left. rewrite replace_all_skip; [eauto|].
        apply tag_at_other. discriminate.
      * right; right. intros Hin. apply in_replace_const in Hin.
        destruct Hin as [Hin|Hin]; [discriminate|auto].
Qed.

Lemma no_match_no_occurrence r u t :
  no_match r u -> Matches r t -> ~ occurs t u.
Proof.
  intros H M (a & b & ->).
  destruct (m_complete _ r t M (@Some jsstring) b b eq_refl) as (x & Hx).
  rewrite (H a (t ++ b) eq_refl) in Hx. discriminate.
Qed.

Lemma matches_str_ci_length e t : Matches (Str ci e) t -> length t = length e.
Proof.
  revert t. induction e as [|c e IH]; intros t H; simpl in H; inv_matches.
  - reflexivity.
  - simpl. f_equal. apply IH. assumption.
Qed.

Lemma ascii_upper_below c k : ascii_upper c = k -> k < 65 -> c = k.
Proof.
  unfold ascii_upper, is_lower. intros H Hk.
  destruct ((97 <=? c) && (c <=? 122)) eqn:E; [|exact H].
  apply andb_true_iff in E. destruct E as [H1 H2].
  apply N.leb_le in H1, H2. lia.
Qed.

(** A code unit below [A] matches only itself, with or without the [i]
    flag. *)
Lemma ci_below_l k c : k < 65 -> ci k c = true -> c = k.
Proof.
  unfold ci. intros Hk H. apply N.eqb_eq in H.
  assert (E : ascii_upper k = k)
    by (symmetry; apply ascii_upper_below; [reflexivity|];
        unfold ascii_upper, is_lower;
        destruct ((97 <=? k) && (k <=? 122)) eqn:E; [|exact Hk];
        apply andb_true_iff in E; destruct E as [H1 _];
        apply N.leb_le in H1; lia).
  rewrite E in H. apply ascii_upper_below; assumption.
Qed.

Lemma ci_below_r k c : k < 65 -> ci c k = true -> c = k.
Proof.
  unfold ci. intros Hk H. apply N.eqb_eq in H.
  assert (E : ascii_upper k = k).
  { unfold ascii_upper, is_lower.
    destruct ((97 <=? k) && (k <=? 122)) eqn:E; [|reflexivity].
    apply andb_true_iff in E. destruct E as [H1 _].
    apply N.leb_le in H1. lia. }
  rewrite E in H. symmetry in H. apply ascii_upper_below; assumption.
Qed.

Lemma matches_str_ci_no_gt e t :
  ~ In 62 e -> Matches (Str ci e) t -> ~ In 62 t.
Proof.
  revert t. induction e as [|c e IH]; intros t He H; simpl in H; inv_matches.
  - simpl. tauto.
  - simpl. intros [E|Hin].
    + subst. apply He. left.
      match goal with H : ci c 62 = true |- _ =>
        apply ci_below_r in H; [exact H|reflexivity] end.
    + revert Hin. apply IH; [|assumption]. intros Hin. apply He.
      right. exact Hin.
Qed.

(** A style block starts with a tag. *)
Lemma style_block_starts_with_tag t :
  Matches styleRe t -> exists t1 t2, t = t1 ++ t2 /\ is_tag t1.
Proof.
  unfold styleRe. intros H.
  apply matches_seq_inv in H. destruct H as (o & t' & -> & Ho & H).
  apply matches_seq_inv in H. destruct H as (x & t'' & -> & Hx & H).
  apply matches_seq_inv in H. destruct H as (g & t3 & -> & Hg & _).
  apply matches_star_chr_inv in Hx. apply forall_not_gt in Hx.
  apply matches_chr_inv in Hg. destruct Hg as (c & -> & Hc).
  apply ci_below_l in Hc; [|reflexivity]. subst c.
  assert (Hgt : ~ In 62 o).
  { apply (matches_str_ci_no_gt (lit "<style")); [|exact Ho].
    vm_compute. intuition discriminate. }
  change (LitI "<style")
    with (Seq (Chr (ci 60)) (Str ci (lit "style"))) in Ho.
  apply matches_seq_inv in Ho. destruct Ho as (o1 & o2 & -> & Ho1 & Ho2).
  apply matches_chr_inv in Ho1. destruct Ho1 as (c & -> & Hc).
  apply ci_below_l in Hc; [|reflexivity]. subst c.
  assert (Hne : o2 <> []).
  { apply matches_str_ci_length in Ho2. intros ->. discriminate. }
  exists (60 :: (o2 ++ x) ++ [62]), t3. split.
  - simpl. repeat (rewrite <- ?app_assoc; simpl). reflexivity.
  - exists (o2 ++ x). split; [reflexivity|]. split.
    + intros E. apply app_eq_nil in E. destruct E as [E _]. auto.
    + intros Hin. apply in_app_or in Hin. destruct Hin as [Hin|Hin]; [|auto].
      apply Hgt. right. exact Hin.
Qed.

(** * Entities *)

Lemma lit_at e s :
  m (Str N.eqb e) (@Some jsstring) s =
  if starts_with e s then Some (skipn (length e) s) else None.
Proof.
  revert s. induction e as [|c e IH]; intros s; [reflexivity|].
  simpl Str. rewrite m_seq. destruct s as [|d s]; [reflexivity|].
  rewrite m_chr_cons. simpl. destruct (c =? d); [apply IH|reflexivity].
Qed.

Lemma starts_with_app e b : starts_with e (e ++ b) = true.
Proof. apply starts_with_spec. eauto. Qed.

Lemma skipn_length_app (e b : jsstring) : skipn (length e) (e ++ b) = b.
Proof. rewrite skipn_app, skipn_all, Nat.sub_diag. reflexivity. Qed.

(** A literal whose first code unit does not occur again in it: a match
    that starts before an occurrence of the literal ends before it. *)
Lemma starts_with_before e1 e a w :
  ~ In e1 e -> starts_with e (a ++ e1 :: w) = starts_with e a.
Proof.
  revert a. induction e as [|d e IH]; intros a H; [reflexivity|].
  destruct a as [|y a]; simpl.
  - replace (d =? e1) with false; [reflexivity|].
    symmetry. apply N.eqb_neq. intros ->. apply H. left. reflexivity.
  - rewrite IH; [reflexivity|]. intros Hin. apply H. right. exact Hin.
Qed.

Lemma replace_str_app e1 e t a b :
  ~ In e1 e ->
  replace_all (Str N.eqb (e1 :: e)) (const_repl t) (a ++ (e1 :: e) ++ b)
  = replace_all (Str N.eqb (e1 :: e)) (const_repl t) a
    ++ t ++ replace_all (Str N.eqb (e1 :: e)) (const_repl t) b.
Proof.
  intros He. pattern a. apply length_induction. clear a. intros a IH.
  destruct a as [|x a].
  - change ([] ++ (e1 :: e) ++ b) with ((e1 :: e) ++ b).
    rewrite replace_all_hit.
    + rewrite replace_all_nil; [reflexivity|]. rewrite lit_at. reflexivity.
    + discriminate.
    + rewrite lit_at, starts_with_app, skipn_length_app. reflexivity.
  - destruct (starts_with (e1 :: e) (x :: a)) eqn:E.
    + pose proof E as E'. apply starts_with_spec in E'.
      destruct E' as (a' & E'). rewrite E'.
      rewrite <- app_assoc.
      rewrite (replace_all_hit _ _ (e1 :: e) (a' ++ (e1 :: e) ++ b));
        [|discriminate
         |rewrite lit_at, starts_with_app, skipn_length_app; reflexivity].
      rewrite (replace_all_hit _ _ (e1 :: e) a');
        [|discriminate
         |rewrite lit_at, starts_with_app, skipn_length_app; reflexivity].
      rewrite <- app_assoc. f_equal. apply IH.
      apply (f_equal (@length N)) in E'. rewrite length_app in E'.
      simpl in E'. simpl. lia.
    + assert (E2 : starts_with (e1 :: e) ((x :: a) ++ (e1 :: e) ++ b) = false).
      { simpl. simpl in E. rewrite starts_with_before; assumption. }
      change ((x :: a) ++ (e1 :: e) ++ b)
        with (x :: a ++ (e1 :: e) ++ b) in *.
      rewrite replace_all_skip; [|rewrite lit_at, E2; reflexivity].
      rewrite (replace_all_skip _ _ x a); [|rewrite lit_at, E; reflexivity].
      simpl. f_equal. apply (IH a). simpl. lia.
Qed.

Lemma decodes_every_intro e t e1 e' :
  lit e = e1 :: e' -> ~ In e1 e' -> decodes_every e t.
Proof.
  intros E H a b. unfold replace_lit, Lit. rewrite E.
  apply replace_str_app. exact H.
Qed.

Lemma entities_decoded :
  decodes_every "&nbsp;" [SP] /\ decodes_every "&amp;" [38]
  /\ decodes_every "&lt;" [60] /\ decodes_every "&gt;" [62].
Proof.
  repeat split; eapply decodes_every_intro;
    try reflexivity; vm_compute; intuition discriminate.
Qed.

(** * Sample documents *)

Lemma indexOf_none needle s :
  indexOf needle s = (-1)%Z -> ~ occurs needle s.
Proof.
  unfold indexOf. intros H.
  destruct (indexOf_from_spec needle s 0%Z ltac:(lia))
    as [[_ Hn]|(a & b & _ & E & _)]; [exact Hn|].
  rewrite H in E. lia.
Qed.

Lemma indexOf_some needle s :
  indexOf needle s <> (-1)%Z -> occurs needle s.
Proof.
  unfold indexOf. intros H.
  destruct (indexOf_from_spec needle s 0%Z ltac:(lia))
    as [[E _]|(a & b & E & _)]; [congruence|].
  exists a, b. exact E.
Qed.

Lemma extract_last_resort_witness :
  (forall c, ~ has_section plainRe (lit "Subject: down") c)
  /\ (forall c, ~ has_section htmlRe (lit "Subject: down") c)
  /\ ~ occurs blank_line (lit "Subject: down")
  /\ extractTextBody (lit "Subject: down") = firstn 500 (lit "Subject: down")
  /\ (length (extractTextBody (lit "Subject: down")) <= 500)%nat
  /\ ((length (lit "Subject: down") <= 500)%nat ->
      extractTextBody (lit "Subject: down") = lit "Subject: down").
Proof.
  assert (Hp : forall c, ~ has_section plainRe (lit "Subject: down") c)
    by (apply str_match_none; vm_compute; reflexivity).
  assert (Hh : forall c, ~ has_section htmlRe (lit "Subject: down") c)
    by (apply str_match_none; vm_compute; reflexivity).
  assert (Hb : ~ occurs blank_line (lit "Subject: down"))
    by (apply indexOf_none; vm_compute; reflexivity).
  repeat split; try assumption;
    apply (extract_last_resort (lit "Subject: down") Hp Hh Hb).
Defined.

(** * The HTML branch *)

Lemma html_capture_no_marker c rest :
  shortest_capture htmlRe c rest -> ~ occurs (LF :: lit "--") c.
Proof.
  intros Hs (x & y & ->).
  apply (Hs x ((LF :: lit "--") ++ y) (LF :: lit "--") (y ++ rest)).
  - reflexivity.
  - discriminate.
  - rewrite <- app_assoc. reflexivity.
  - apply matchesb_true. vm_compute. reflexivity.
Qed.

(** C2.  The entity steps run in the order [&nbsp;], [&amp;], [&lt;],
    [&gt;]: the [&lt;] that decoding [&amp;lt;] produces is decoded again,
    and the result holds [<] and no [&lt;]. *)
Theorem html_amp_decoded_before_lt :
  (forall c, ~ has_section plainRe (sample_html "a &amp;lt; b") c)
  /\ str_match htmlRe (sample_html "a &amp;lt; b") = Some (lit "a &amp;lt; b")
  /\ replace_lit "&amp;" [38] (lit "a &amp;lt; b") = lit "a &lt; b"
  /\ decode_entities (lit "a &amp;lt; b") = lit "a < b"
  /\ extractTextBody (sample_html "a &amp;lt; b") = lit "a < b"
  /\ ~ occurs (lit "&lt;") (extractTextBody (sample_html "a &amp;lt; b"))
  /\ occurs (lit "<") (extractTextBody (sample_html "a &amp;lt; b")).
Proof.
  split; [apply str_match_none; vm_compute; reflexivity|].
  repeat split; try (vm_compute; reflexivity).
  - apply indexOf_none. vm_compute. reflexivity.
  - apply indexOf_some. vm_compute. discriminate.
Qed.

(** C4.  A document that starts with the blank line: [indexOf] returns 0,
    the test [headerEnd > 0] fails, and the document is returned as it is
    instead of the cleaned text after the blank line. *)
Theorem header_fallback_misses_index_zero :
  (forall c, ~ has_section plainRe (blank_line ++ lit "hello   world") c)
  /\ (forall c, ~ has_section htmlRe (blank_line ++ lit "hello   world") c)
  /\ occurs blank_line (blank_line ++ lit "hello   world")
  /\ indexOf blank_line (blank_line ++ lit "hello   world") = 0%Z
  /\ extractTextBody (blank_line ++ lit "hello   world")
     = blank_line ++ lit "hello   world"
  /\ cleanBody (lit "hello   world") = lit "hello world"
  /\ extractTextBody (blank_line ++ lit "hello   world")
     <> cleanBody (lit "hello   world").
Proof.
  split; [apply str_match_none; vm_compute; reflexivity|].
  split; [apply str_match_none; vm_compute; reflexivity|].
  split; [exists [], (lit "hello   world"); reflexivity|].
  repeat split; try (vm_compute; reflexivity).
  vm_compute. discriminate.
Qed.

Lemma read_chunks_ok pending chunks w t :
  stream_ok pending ->
  read_chunks pending chunks w t = (t, Ok (chunks ++ delivered pending)).
Proof.
  intros H. revert chunks.
  induction H as [|st pending Hst _ IH]; intros chunks; simpl.
  - rewrite app_nil_r. reflexivity.
  - destruct st as [[value|]|e]; [| |contradiction].
    + rewrite IH, <- app_assoc. reflexivity.
    + apply IH.
Qed.

Lemma read_chunks_trace pending chunks w t :
  fst (read_chunks pending chunks w t) = t.
Proof.
  revert chunks. induction pending as [|st pending IH]; intros chunks;
    [reflexivity|].
  destruct st as [[value|]|e]; simpl; auto.
Qed.

(** [concatenate] lays the chunks out one after the other. *)
Lemma total_length (arrays : list (list N)) n :
  fold_left (fun sum arr => (sum + length arr)%nat) arrays n
  = (n + length (concat arrays))%nat.
Proof.
  revert n. induction arrays as [|arr arrays IH]; intros n; simpl; [lia|].
  rewrite IH, length_app. lia.
Qed.

Lemma concatenate_loop (arrays : list (list N)) done :
  fold_left
    (fun (st : list N * nat) arr =>
       (set_at (fst st) arr (snd st), (snd st + length arr)%nat))
    arrays (done ++ repeat 0 (length (concat arrays)), length done)
  = (done ++ concat arrays, (length done + length (concat arrays))%nat).
Proof.
  revert done. induction arrays as [|arr arrays IH]; intros done; simpl.
  - rewrite Nat.add_0_r. reflexivity.
  - assert (E : set_at (done ++ repeat 0 (length (arr ++ concat arrays)))
                  arr (length done)
                = (done ++ arr) ++ repeat 0 (length (concat arrays))).
    { unfold set_at. rewrite length_app, repeat_app.
      rewrite firstn_app, firstn_all, Nat.sub_diag, firstn_O, app_nil_r.
      rewrite skipn_app, skipn_all2 by lia.
      replace (length done + length arr - length done)%nat
        with (length arr) by lia.
      rewrite skipn_app, skipn_all2 by (rewrite repeat_length; lia).
      rewrite repeat_length, Nat.sub_diag, skipn_O.
      rewrite <- app_assoc. reflexivity. }
    rewrite E. replace (length done + length arr)%nat
      with (length (done ++ arr)) by (rewrite length_app; reflexivity).
    rewrite IH, <- app_assoc, !length_app. f_equal. lia.
Qed.

Lemma concatenate_concat arrays : concatenate arrays = concat arrays.
Proof.
  unfold concatenate. rewrite total_length.
  change (repeat 0 (0 + length (concat arrays)), 0%nat)
    with ([] ++ repeat 0 (length (concat arrays)), length (@nil N)).
  rewrite (concatenate_loop arrays []). reflexivity.
Qed.

Section HandlerFacts.
Variable decode : list N -> jsstring.

(** The run of the handler, by cases on the stream and on the answer
    of the network. *)
Lemma run_email_cases message env w :
  (exists e, run_email decode message env w = ([], Thrown e)
             /\ ~ stream_ok (msg_raw message))
  \/ (stream_ok (msg_raw message)
      /\ exists chunks,
          chunks = delivered (msg_raw message)
          /\ run_email decode message env w =
             ([ConsoleLog (received_line message);
               Fetch (request_of decode message env w chunks);
               match network w (request_of decode message env w chunks) with
               | Response status =>
                   ConsoleLog (lit "Webhook response: "
                               ++ number_to_string status)
               | NetworkError err =>
                   ConsoleError (lit "Webhook POST failed: " ++ err)
               end], Ok tt)).
Proof.
  unfold run_email, email, request_of.
  cbv beta iota zeta delta [bind date_now_iso console_log try_catch
                            fetch console_error].
  destruct (read_chunks (msg_raw message) [] w []) as [t [chunks|e]] eqn:E.
  - right.
    assert (Hok : stream_ok (msg_raw message)).
    { clear -E. revert E. generalize (@nil (list N)) as acc.
      induction (msg_raw message) as [|st pending IH]; intros acc E.
      - constructor.
      - destruct st as [[value|]|err]; simpl in E.
        + constructor; [exact I|]. eapply IH; eauto.
        + constructor; [exact I|]. eapply IH; eauto.
        + discriminate. }
    split; [exact Hok|].
    rewrite (read_chunks_ok _ [] w [] Hok) in E. injection E as <- <-.
    eexists. split; [reflexivity|]. simpl app at 1.
    destruct (network w _); reflexivity.
  - left. exists e.
    pose proof (read_chunks_trace (msg_raw message) [] w []) as Ht.
    rewrite E in Ht. simpl in Ht. subst t. split; [reflexivity|].
    intros Hok. rewrite (read_chunks_ok _ [] w [] Hok) in E.
    discriminate.
Qed.
End HandlerFacts.

Section HandlerTheorems.
Variable decode : list N -> jsstring.

Lemma posts_of_run message env w :
  posts (fst (run_email decode message env w)) = []
  \/ posts (fst (run_email decode message env w))
     = [request_of decode message env w (delivered (msg_raw message))].
Proof.
  destruct (run_email_cases decode message env w)
    as [(e & -> & _)|(_ & chunks & -> & ->)]; [left; reflexivity|right].
  simpl. destruct (network w _); reflexivity.
Qed.

(** C8.  The payload is built with the first 2000 code units of the
    extracted body, whatever its length: the body field has at most
    2000 code units and is a prefix of the extracted body.  Every
    request of an invocation carries such a payload. *)
Theorem payload_body_bounded message env w :
  (forall from to subject body now,
      (length (p_body (build_payload from to subject body now)) <= 2000)%nat
      /\ p_body (build_payload from to subject body now) = firstn 2000 body
      /\ exists rest,
          body = p_body (build_payload from to subject body now) ++ rest)
  /\ Forall
       (fun req =>
          (length (p_body (req_body req)) <= 2000)%nat
          /\ exists rest,
              extractTextBody
                (decode (concatenate (delivered (msg_raw message))))
              = p_body (req_body req) ++ rest)
       (posts (fst (run_email decode message env w))).
Proof.
  assert (H : forall from to subject body now,
             (length (p_body (build_payload from to subject body now))
              <= 2000)%nat
             /\ p_body (build_payload from to subject body now)
                = firstn 2000 body
             /\ exists rest,
                 body = p_body (build_payload from to subject body now)
                        ++ rest).
  { intros from to subject body now. cbn [p_body build_payload].
    unfold slice_to.
    split; [apply firstn_le_length|]. split; [reflexivity|].
    exists (skipn 2000 body). symmetry. apply firstn_skipn. }
  split; [exact H|].
  destruct (posts_of_run message env w) as [-> | ->]; [constructor|].
  constructor; [|constructor]. unfold request_of. cbn [req_body].
  match goal with
  | |- context [build_payload ?f ?t ?s ?b ?n] =>
      destruct (H f t s b n) as (H1 & _ & H3)
  end.
  split; assumption.
Qed.

(** C9.  An invocation issues at most one request.  When the stream is
    read to its end and the request fails with a transport error, the
    invocation logs the received line, issues that one request, logs
    the failure with [console.error] and completes without throwing. *)
Theorem post_failure_is_logged message env w err :
  stream_ok (msg_raw message) ->
  (forall req, network w req = NetworkError err) ->
  (length (posts (fst (run_email decode message env w))) <= 1)%nat
  /\ run_email decode message env w =
     ([ConsoleLog (received_line message);
       Fetch (request_of decode message env w (delivered (msg_raw message)));
       ConsoleError (lit "Webhook POST failed: " ++ err)], Ok tt)
  /\ snd (run_email decode message env w) = Ok tt
  /\ posts (fst (run_email decode message env w))
     = [request_of decode message env w (delivered (msg_raw message))].
Proof.
  intros Hok Hnet.
  destruct (run_email_cases decode message env w)
    as [(e & _ & Hn)|(_ & chunks & -> & E)]; [contradiction|].
  rewrite Hnet in E. rewrite E. simpl. repeat split. lia.
Qed.

(** Whatever the stream and the network do, at most one request is
    issued, and the invocation throws only when a read of the stream
    rejects. *)
Lemma at_most_one_post message env w :
  (length (posts (fst (run_email decode message env w))) <= 1)%nat
  /\ (snd (run_email decode message env w) = Ok tt
      \/ ~ stream_ok (msg_raw message)).
Proof.
  destruct (run_email_cases decode message env w)
    as [(e & -> & Hn)|(_ & chunks & -> & ->)]; simpl; split; auto.
  destruct (network w _); simpl; lia.
Qed.

End HandlerTheorems.

Lemma sample_stream_ok subject : stream_ok (msg_raw (sample_message subject)).
Proof. repeat constructor. Qed.

Lemma post_failure_is_logged_witness :
  (length (posts (fst (run_email ascii_decode (sample_message None)
                         sample_env unreachable))) <= 1)%nat
  /\ run_email ascii_decode (sample_message None) sample_env unreachable =
     ([ConsoleLog (received_line (sample_message None));
       Fetch (request_of ascii_decode (sample_message None) sample_env
                unreachable (delivered (msg_raw (sample_message None))));
       ConsoleError (lit "Webhook POST failed: "
                     ++ lit "TypeError: fetch failed")], Ok tt)
  /\ snd (run_email ascii_decode (sample_message None) sample_env unreachable)
     = Ok tt
  /\ posts (fst (run_email ascii_decode (sample_message None) sample_env
                   unreachable))
     = [request_of ascii_decode (sample_message None) sample_env unreachable
          (delivered (msg_raw (sample_message None)))].
Proof.
  apply (post_failure_is_logged ascii_decode (sample_message None) sample_env
           unreachable (lit "TypeError: fetch failed")).
  - apply sample_stream_ok.
  - intros req. reflexivity.
Defined.


(** * Further properties of the handler *)

(** X1.  [concatenate] returns the chunks laid end to end, in order: its
    length is the sum of the lengths, and empty chunks contribute
    nothing. *)
Theorem concatenate_end_to_end arrays :
  concatenate arrays = concat arrays
  /\ length (concatenate arrays) = list_sum (map (@length N) arrays)
  /\ concatenate (filter (fun arr => negb (length arr =? 0)%nat) arrays)
     = concatenate arrays.
Proof.
  split; [apply concatenate_concat|]. rewrite !concatenate_concat. split.
  - induction arrays as [|arr arrays IH]; simpl; [reflexivity|].
    rewrite length_app, IH. reflexivity.
  - induction arrays as [|arr arrays IH]; simpl; [reflexivity|].
    destruct arr as [|x arr]; simpl; [exact IH|]. rewrite IH. reflexivity.
Qed.

Lemma read_chunks_fails pre e post chunks w t :
  stream_ok pre ->
  read_chunks (pre ++ ReadFails e :: post) chunks w t = (t, Thrown e).
Proof.
  intros H. revert chunks.
  induction H as [|st pre Hst _ IH]; intros chunks; simpl; [reflexivity|].
  destruct st as [[value|]|e']; [apply IH|apply IH|contradiction].
Qed.

Section HandlerExtras.
Variable decode : list N -> jsstring.

(** X2.  The invocation depends on the stream only through the bytes it
    delivers: two messages with the same envelope and subject whose
    streams deliver the same bytes, however they are cut into chunks and
    whatever undefined values or empty chunks come in between, run
    alike. *)
Theorem run_independent_of_chunking m1 m2 env w :
  msg_from m1 = msg_from m2 ->
  msg_to m1 = msg_to m2 ->
  headers_get m1 (lit "subject") = headers_get m2 (lit "subject") ->
  stream_ok (msg_raw m1) -> stream_ok (msg_raw m2) ->
  concat (delivered (msg_raw m1)) = concat (delivered (msg_raw m2)) ->
  run_email decode m1 env w = run_email decode m2 env w.
Proof.
  intros Hf Ht Hs H1 H2 Hb.
  assert (Er : request_of decode m1 env w (delivered (msg_raw m1))
               = request_of decode m2 env w (delivered (msg_raw m2))).
  { unfold request_of. rewrite !concatenate_concat, Hf, Ht, Hs, Hb.
    reflexivity. }
  assert (El : received_line m1 = received_line m2).
  { unfold received_line. rewrite Hf, Hs. reflexivity. }
  destruct (run_email_cases decode m1 env w)
    as [(e & _ & Hn)|(_ & c1 & -> & ->)]; [contradiction|].
  destruct (run_email_cases decode m2 env w)
    as [(e & _ & Hn)|(_ & c2 & -> & ->)]; [contradiction|].
  rewrite Er, El. reflexivity.
Qed.

(** X3.  When a read of the stream rejects, the invocation rejects with
    the error of the first such read, before anything is logged or
    sent. *)
Theorem stream_failure_propagates message env w pre e post :
  msg_raw message = pre ++ ReadFails e :: post ->
  stream_ok pre ->
  run_email decode message env w = ([], Thrown e).
Proof.
  intros E Hok. unfold run_email, email.
  cbv beta iota zeta delta [bind].
  rewrite E, (read_chunks_fails pre e post [] w [] Hok). reflexivity.
Qed.

(** X4.  Any response of the endpoint, whatever its status, counts as
    delivered: the status is written with [console.log], nothing is
    written with [console.error], and the invocation completes. *)
Theorem response_status_is_logged message env w status :
  stream_ok (msg_raw message) ->
  (forall req, network w req = Response status) ->
  run_email decode message env w =
  ([ConsoleLog (received_line message);
    Fetch (request_of decode message env w (delivered (msg_raw message)));
    ConsoleLog (lit "Webhook response: " ++ number_to_string status)], Ok tt)
  /\ errors (fst (run_email decode message env w)) = [].
Proof.
  intros Hok Hnet.
  destruct (run_email_cases decode message env w)
    as [(e & _ & Hn)|(_ & chunks & -> & E)]; [contradiction|].
  rewrite Hnet in E. rewrite E. split; reflexivity.
Qed.

(** X5.  The request of an invocation goes to the configured URL and
    carries the envelope addresses unchanged, the time of the clock, and
    the subject header as it is when it is present and not empty. *)
Theorem request_carries_envelope message env w c s :
  stream_ok (msg_raw message) ->
  headers_get message (lit "subject") = Some (c :: s) ->
  exists req,
    posts (fst (run_email decode message env w)) = [req]
    /\ req_url req = WEBHOOK_URL env
    /\ req_method req = lit "POST"
    /\ p_source (req_body req) = lit "email"
    /\ p_from (req_body req) = msg_from message
    /\ p_to (req_body req) = msg_to message
    /\ p_subject (req_body req) = c :: s
    /\ p_received_at (req_body req) = clock w.
Proof.
  intros Hok Hs.
  destruct (run_email_cases decode message env w)
    as [(e & _ & Hn)|(_ & chunks & -> & E)]; [contradiction|].
  rewrite E. eexists. split.
  - simpl. destruct (network w _); reflexivity.
  - unfold request_of. cbn [req_url req_method req_body build_payload
                             p_source p_from p_to p_subject p_received_at].
    rewrite Hs. repeat split.
Qed.

(** X6.  Every invocation either rejects before any effect, because a
    read of the stream rejected, or completes normally after exactly one
    request that follows the line logged on receipt. *)
Theorem invocation_outcomes message env w :
  (exists e, run_email decode message env w = ([], Thrown e))
  \/ (snd (run_email decode message env w) = Ok tt
      /\ exists last,
          fst (run_email decode message env w)
          = [ConsoleLog (received_line message);
             Fetch (request_of decode message env w
                      (delivered (msg_raw message)));
             last]
          /\ posts [last] = []).
Proof.
  destruct (run_email_cases decode message env w)
    as [(e & -> & _)|(_ & chunks & -> & ->)]; [left; eauto|right].
  split; [reflexivity|]. eexists. split; [reflexivity|].
  destruct (network w _); reflexivity.
Qed.
End HandlerExtras.

Lemma run_independent_of_chunking_witness :
  run_email ascii_decode
    (stream_message None
       [ReadValue (Some (lit "Subject: ")); ReadValue None;
        ReadValue (Some []); ReadValue (Some (lit "down"))])
    sample_env unreachable
  = run_email ascii_decode
      (stream_message None [ReadValue (Some (lit "Subject: down"))])
      sample_env unreachable.
Proof.
  apply (run_independent_of_chunking ascii_decode
           (stream_message None
              [ReadValue (Some (lit "Subject: ")); ReadValue None;
               ReadValue (Some []); ReadValue (Some (lit "down"))])
           (stream_message None [ReadValue (Some (lit "Subject: down"))])
           sample_env unreachable);
    try reflexivity; repeat constructor.
Defined.

Lemma stream_failure_propagates_witness :
  run_email ascii_decode
    (stream_message None
       [ReadValue (Some (lit "Subject: ")); ReadFails (lit "aborted");
        ReadValue (Some (lit "down"))])
    sample_env unreachable
  = ([], Thrown (lit "aborted")).
Proof.
  apply (stream_failure_propagates ascii_decode
           (stream_message None
              [ReadValue (Some (lit "Subject: ")); ReadFails (lit "aborted");
               ReadValue (Some (lit "down"))])
           sample_env unreachable
           [ReadValue (Some (lit "Subject: "))] (lit "aborted")
           [ReadValue (Some (lit "down"))]).
  - reflexivity.
  - repeat constructor.
Defined.

Lemma response_status_is_logged_witness :
  run_email ascii_decode (sample_message None) sample_env (responding 500) =
  ([ConsoleLog (received_line (sample_message None));
    Fetch (request_of ascii_decode (sample_message None) sample_env
             (responding 500) (delivered (msg_raw (sample_message None))));
    ConsoleLog (lit "Webhook response: " ++ number_to_string 500)], Ok tt)
  /\ errors (fst (run_email ascii_decode (sample_message None) sample_env
                    (responding 500))) = [].
Proof.
  apply (response_status_is_logged ascii_decode (sample_message None)
           sample_env (responding 500) 500).
  - apply sample_stream_ok.
  - intros req. reflexivity.
Defined.

Lemma request_carries_envelope_witness :
  exists req,
    posts (fst (run_email ascii_decode (sample_message (Some (lit "Outage")))
                  sample_env unreachable)) = [req]
    /\ req_url req = WEBHOOK_URL sample_env
    /\ req_method req = lit "POST"
    /\ p_source (req_body req) = lit "email"
    /\ p_from (req_body req) = msg_from (sample_message (Some (lit "Outage")))
    /\ p_to (req_body req) = msg_to (sample_message (Some (lit "Outage")))
    /\ p_subject (req_body req) = lit "Outage"
    /\ p_received_at (req_body req) = clock unreachable.
Proof.
  apply (request_carries_envelope ascii_decode
           (sample_message (Some (lit "Outage"))) sample_env unreachable
           79 (lit "utage")).
  - apply sample_stream_ok.
  - reflexivity.
Defined.

(** * Further properties of the clean step *)

(** A replacement whose output is never longer than what it replaces
    does not lengthen the string. *)
Lemma replace_all_length r f s :
  (forall x rest, m r (@Some jsstring) x = Some rest ->
     (length (f (firstn (length x - length rest) x)) + length rest
      <= length x)%nat) ->
  (length (replace_all r f s) <= length s)%nat.
Proof.
  intros Hf. pattern s. apply length_induction. clear s. intros s IH.
  rewrite replace_all_unfold.
  destruct (m r (@Some jsstring) s) as [rest|] eqn:E.
  - pose proof (Hf s rest E) as Hl.
    destruct (length rest <? length s)%nat eqn:L.
    + apply Nat.ltb_lt in L. rewrite length_app.
      specialize (IH rest L). lia.
    + apply Nat.ltb_ge in L.
      replace (length s - length rest)%nat with 0%nat in Hl by lia.
      rewrite firstn_O in Hl. destruct s as [|c s].
      * simpl length in *. lia.
      * rewrite length_app. simpl length in *.
        specialize (IH s ltac:(lia)). lia.
  - destruct s as [|c s]; [reflexivity|]. simpl.
    specialize (IH s ltac:(simpl; lia)). lia.
Qed.

Lemma match_rest_length r x rest :
  m r (@Some jsstring) x = Some rest -> (length rest <= length x)%nat.
Proof.
  intros H. apply m_sound in H. destruct H as (t & v & -> & _ & H).
  injection H as ->. rewrite length_app. lia.
Qed.

Lemma remove_soft_breaks_length s :
  (length (remove_soft_breaks s) <= length s)%nat.
Proof.
  apply replace_all_length. intros x rest H.
  apply match_rest_length in H. simpl. exact H.
Qed.

(** A pattern that starts with a code unit class matches nowhere in a
    string without such a code unit. *)
Lemma no_match_first_class p r s :
  Forall (fun c => p c = false) s -> no_match (Seq (Chr p) r) s.
Proof.
  intros H a b ->. apply Forall_app in H. destruct H as [_ H].
  destruct b as [|c b]; [reflexivity|].
  rewrite m_seq, m_chr_cons. inversion H as [|? ? Hc _]; subst.
  rewrite Hc. reflexivity.
Qed.

Lemma no_equals_sign_class s :
  ~ In 61 s -> Forall (fun c => (61 =? c) = false) s.
Proof.
  intros H. apply Forall_forall. intros c Hc. apply N.eqb_neq.
  intros <-. auto.
Qed.

Lemma cleanBody_ends s :
  (forall d t, cleanBody s = d :: t -> is_space d = false)
  /\ (forall t d, cleanBody s = t ++ [d] -> is_space d = false).
Proof.
  unfold cleanBody, trim.
  set (y := trim_start (collapse_spaces
                          (decode_hex_escapes (remove_soft_breaks s)))).
  split.
  - intros d t E. pose proof (trim_start_head
      (collapse_spaces (decode_hex_escapes (remove_soft_breaks s)))) as H.
    fold y in H. destruct y as [|d0 y0]; [discriminate|].
    rewrite (trim_end_cons d0 y0 H) in E. injection E as <- _. exact H.
  - intros t d E. unfold trim_end in E.
    apply (f_equal (@rev N)) in E.
    rewrite rev_involutive, rev_app_distr in E. simpl in E.
    pose proof (trim_start_head (rev y)) as H. rewrite E in H. exact H.
Qed.

(** X7.  The cleaned text is whitespace-normalised: it neither starts
    nor ends with whitespace, every whitespace code unit in it is a
    single space between two other code units, and so it holds no line
    break, tab or no-break space. *)
Theorem cleanBody_normal_form s :
  single_spaced (cleanBody s)
  /\ trim (cleanBody s) = cleanBody s
  /\ (forall d t, cleanBody s = d :: t -> is_space d = false)
  /\ (forall t d, cleanBody s = t ++ [d] -> is_space d = false)
  /\ (forall c, In c (cleanBody s) -> is_space c = true -> c = SP).
Proof.
  split; [apply cleanBody_single_spaced|].
  split; [unfold cleanBody; apply trim_idem|].
  split; [apply cleanBody_ends|]. split; [apply cleanBody_ends|].
  intros c. apply single_spaced_in, cleanBody_single_spaced.
Qed.

Lemma clean_step_shrinks s : (length (cleanBody s) <= length s)%nat.
Proof.
  unfold cleanBody.
  pose proof (remove_soft_breaks_length s).
  pose proof (decode_hex_length (remove_soft_breaks s)).
  pose proof (collapse_length (decode_hex_escapes (remove_soft_breaks s))).
  pose proof (trim_length
                (collapse_spaces
                   (decode_hex_escapes (remove_soft_breaks s)))).
  lia.
Qed.

(** X8.  The clean step never makes a text longer, and neither does any
    of its four steps. *)
Theorem cleanBody_length s :
  (length (cleanBody s) <= length s)%nat
  /\ (length (remove_soft_breaks s) <= length s)%nat
  /\ (length (decode_hex_escapes s) <= length s)%nat
  /\ (length (collapse_spaces s) <= length s)%nat
  /\ (length (trim s) <= length s)%nat.
Proof.
  split; [apply clean_step_shrinks|].
  split; [apply remove_soft_breaks_length|].
  split; [apply decode_hex_length|].
  split; [apply collapse_length|apply trim_length].
Qed.

Lemma trim_start_all_space s :
  Forall (fun c => is_space c = true) s -> trim_start s = [].
Proof.
  induction 1 as [|c s Hc _ IH]; simpl; [reflexivity|].
  rewrite Hc. exact IH.
Qed.

Lemma clean_without_equals_sign s :
  ~ In 61 s -> cleanBody s = trim (collapse_spaces s).
Proof.
  intros H. unfold cleanBody, remove_soft_breaks, decode_hex_escapes.
  rewrite (replace_all_no_match softBreakRe);
    [|apply no_match_first_class, no_equals_sign_class, H].
  rewrite (replace_all_no_match hexEscapeRe);
    [|apply no_match_first_class, no_equals_sign_class, H].
  reflexivity.
Qed.

(** X10.  On a text without [=] the two quoted-printable steps change
    nothing, and the clean step is the whitespace normalisation alone. *)
Theorem cleanBody_without_equals s :
  ~ In 61 s ->
  remove_soft_breaks s = s /\ decode_hex_escapes s = s
  /\ cleanBody s = trim (collapse_spaces s).
Proof.
  intros H. split; [|split]; [| |apply clean_without_equals_sign, H].
  - apply replace_all_no_match, no_match_first_class,
      no_equals_sign_class, H.
  - apply replace_all_no_match, no_match_first_class,
      no_equals_sign_class, H.
Qed.

(** X9.  A text of whitespace only, the empty text included, cleans to
    the empty text. *)
Theorem cleanBody_whitespace_only s :
  Forall (fun c => is_space c = true) s -> cleanBody s = [].
Proof.
  intros H. rewrite clean_without_equals_sign.
  - destruct H as [|c s Hc Hs]; [reflexivity|].
    rewrite collapse_cons, Hc, (trim_start_all_space s Hs).
    reflexivity.
  - intros Hin. rewrite Forall_forall in H. apply H in Hin. discriminate.
Qed.

Lemma cleanBody_without_equals_witness :
  ~ In 61 (lit " a   b ")
  /\ remove_soft_breaks (lit " a   b ") = lit " a   b "
  /\ decode_hex_escapes (lit " a   b ") = lit " a   b "
  /\ cleanBody (lit " a   b ") = trim (collapse_spaces (lit " a   b ")).
Proof.
  assert (H : ~ In 61 (lit " a   b "))
    by (vm_compute; intuition discriminate).
  split; [exact H|].
  exact (cleanBody_without_equals (lit " a   b ") H).
Defined.

Lemma cleanBody_whitespace_only_witness :
  cleanBody ([SP; 9; CR; LF; 160]) = [].
Proof.
  apply (cleanBody_whitespace_only [SP; 9; CR; LF; 160]).
  repeat constructor.
Defined.

(** ** Hex escapes *)

Lemma hexEscape_formula s :
  m hexEscapeRe (@Some jsstring) s =
  match s with
  | c1 :: s1 =>
      if 61 =? c1 then
        match s1 with
        | c2 :: s2 =>
            if is_hex c2 then
              match s2 with
              | c3 :: s3 => if is_hex c3 then Some s3 else None
              | [] => None
              end
            else None
        | [] => None
        end
      else None
  | [] => None
  end.
Proof. destruct s as [|c1 [|c2 [|c3 s]]]; reflexivity. Qed.

(** An escape found in [a] followed by [=...] is found in [a] alone, and
    conversely. *)
Lemma hexEscape_local a w :
  a <> [] ->
  (m hexEscapeRe (@Some jsstring) (a ++ 61 :: w) = None
   /\ m hexEscapeRe (@Some jsstring) a = None)
  \/ exists t a',
      a = t ++ a' /\ t <> []
      /\ m hexEscapeRe (@Some jsstring) (a ++ 61 :: w) = Some (a' ++ 61 :: w)
      /\ m hexEscapeRe (@Some jsstring) a = Some a'.
Proof.
  intros Hne. rewrite !hexEscape_formula.
  destruct a as [|x a]; [congruence|]. simpl app; cbv beta iota.
  destruct (61 =? x) eqn:Ex; [|left; split; reflexivity].
  destruct a as [|y a]; simpl app; cbv beta iota.
  - left. split; reflexivity.
  - destruct (is_hex y) eqn:Ey; [|left; split; reflexivity].
    destruct a as [|z a]; simpl app; cbv beta iota.
    + left. split; reflexivity.
    + destruct (is_hex z) eqn:Ez; [|left; split; reflexivity].
      right. exists [x; y; z], a. repeat split; discriminate.
Qed.

Lemma hex_digit_bound h : is_hex h = true -> hex_digit h <= 15.
Proof.
  unfold is_hex, hex_digit, is_digit, is_upper. intros H.
  destruct ((48 <=? h) && (h <=? 57)) eqn:E1.
  - apply andb_true_iff in E1. destruct E1 as [A B].
    apply N.leb_le in A, B. clear H. lia.
  - simpl in H. apply orb_true_iff in H.
    destruct ((65 <=? h) && (h <=? 90)) eqn:E2.
    + apply andb_true_iff in E2. destruct E2 as [C D].
      apply N.leb_le in C, D.
      destruct H as [H|H]; apply andb_true_iff in H; destruct H as [A B];
        apply N.leb_le in A, B; lia.
    + apply andb_false_iff in E2.
      destruct H as [H|H]; apply andb_true_iff in H; destruct H as [A B];
        apply N.leb_le in A, B;
        destruct E2 as [E2|E2]; apply N.leb_gt in E2; lia.
Qed.

Lemma hex_repl_value h1 h2 :
  is_hex h1 = true -> is_hex h2 = true ->
  hex_repl [61; h1; h2] = [16 * hex_digit h1 + hex_digit h2].
Proof.
  intros H1 H2. apply hex_digit_bound in H1, H2.
  unfold hex_repl, fromCharCode, parseInt16. cbn [tl fold_left].
  f_equal. rewrite N.mod_small; lia.
Qed.

(** X11.  Every [=XX] escape of the text is decoded, to the code unit
    whose value the two hexadecimal digits give (below 256); the text
    before and after it is decoded on its own. *)
Theorem decode_hex_escapes_app a h1 h2 b :
  is_hex h1 = true -> is_hex h2 = true ->
  decode_hex_escapes (a ++ [61; h1; h2] ++ b)
  = decode_hex_escapes a ++ [16 * hex_digit h1 + hex_digit h2]
    ++ decode_hex_escapes b
  /\ 16 * hex_digit h1 + hex_digit h2 < 256.
Proof.
  intros H1 H2. split.
  2:{ apply hex_digit_bound in H1, H2. lia. }
  assert (Hhit : m hexEscapeRe (@Some jsstring) ([61; h1; h2] ++ b) = Some b).
  { rewrite hexEscape_formula. simpl. rewrite H1, H2. reflexivity. }
  pattern a. apply length_induction. clear a. intros a IH.
  unfold decode_hex_escapes in *.
  destruct a as [|x a].
  - change ([] ++ [61; h1; h2] ++ b) with ([61; h1; h2] ++ b).
    rewrite (replace_all_hit _ _ [61; h1; h2] b ltac:(discriminate) Hhit).
    rewrite (hex_repl_value h1 h2 H1 H2).
    rewrite replace_all_nil by reflexivity. reflexivity.
  - change ([61; h1; h2] ++ b) with (61 :: [h1; h2] ++ b) in *.
    destruct (hexEscape_local (x :: a) ([h1; h2] ++ b) ltac:(discriminate))
      as [[E1 E2]|(u & a' & E & Hu & E1 & E2)].
    + change ((x :: a) ++ 61 :: [h1; h2] ++ b)
        with (x :: a ++ 61 :: [h1; h2] ++ b) in *.
      rewrite (replace_all_skip _ _ _ _ E1).
      rewrite (replace_all_skip _ _ _ _ E2).
      simpl. f_equal. apply (IH a). simpl. lia.
    + rewrite E in *. rewrite <- app_assoc in *.
      rewrite (replace_all_hit _ _ _ _ Hu E1).
      rewrite (replace_all_hit _ _ _ _ Hu E2).
      rewrite <- app_assoc. f_equal. apply (IH a').
      rewrite length_app. destruct u; [congruence|]. simpl. lia.
Qed.

Lemma decode_hex_escapes_app_witness :
  decode_hex_escapes (lit "a=3D" ++ [61; 52; 49] ++ lit "=zz")
  = decode_hex_escapes (lit "a=3D") ++ [16 * hex_digit 52 + hex_digit 49]
    ++ decode_hex_escapes (lit "=zz")
  /\ 16 * hex_digit 52 + hex_digit 49 < 256.
Proof.
  apply (decode_hex_escapes_app (lit "a=3D") 52 49 (lit "=zz"));
    reflexivity.
Defined.

(** * Further properties of extractTextBody *)

Lemma indexOf_is_first needle s n :
  indexOf needle s = Z.of_nat n ->
  forall a' b', s = a' ++ needle ++ b' -> (n <= length a')%nat.
Proof.
  unfold indexOf. intros H a' b' E.
  destruct (indexOf_from_spec needle s 0%Z ltac:(lia))
    as [[H1 _]|(a & b & _ & H1 & Hl)].
  - rewrite H1 in H. lia.
  - rewrite H1 in H. specialize (Hl a' b' E). lia.
Qed.

(** X12.  Header-boundary branch: with no text/plain and no text/html
    section, and the first blank line ([\r\n\r\n]) not at the very start
    of the document, the result is the clean step applied to everything
    after that blank line. *)
Theorem header_fallback_after_first_blank_line a b :
  (forall c, ~ has_section plainRe (a ++ blank_line ++ b) c) ->
  (forall c, ~ has_section htmlRe (a ++ blank_line ++ b) c) ->
  (forall a' b', a ++ blank_line ++ b = a' ++ blank_line ++ b' ->
                 (length a <= length a')%nat) ->
  a <> [] ->
  extractTextBody (a ++ blank_line ++ b) = cleanBody b.
Proof. apply extract_header_fallback. Qed.

Lemma header_fallback_after_first_blank_line_witness :
  extractTextBody (lit "Subject: x" ++ blank_line
                   ++ lit " body " ++ blank_line ++ lit "text ")
  = cleanBody (lit " body " ++ blank_line ++ lit "text ").
Proof.
  apply (header_fallback_after_first_blank_line (lit "Subject: x")
           (lit " body " ++ blank_line ++ lit "text ")).
  - apply str_match_none. vm_compute. reflexivity.
  - apply str_match_none. vm_compute. reflexivity.
  - apply (indexOf_is_first blank_line). vm_compute. reflexivity.
  - discriminate.
Defined.

(** Lengths of the steps of the HTML branch. *)
Lemma strip_style_length s : (length (strip_style s) <= length s)%nat.
Proof.
  apply replace_all_length. intros x rest H.
  apply match_rest_length in H. simpl. exact H.
Qed.

Lemma strip_tags_length s : (length (strip_tags s) <= length s)%nat.
Proof.
  apply replace_all_length. intros x rest H.
  apply tag_match_shorter in H. simpl. lia.
Qed.

Lemma lit_match_length e x rest :
  m (Str N.eqb e) (@Some jsstring) x = Some rest ->
  (length e + length rest = length x)%nat.
Proof.
  rewrite lit_at. destruct (starts_with e x) eqn:E; [|discriminate].
  intros H. injection H as <-. apply starts_with_spec in E.
  destruct E as (b & ->). rewrite skipn_length_app, length_app. reflexivity.
Qed.

Lemma replace_lit_length e t s :
  (length t <= length (lit e))%nat ->
  (length (replace_lit e t s) <= length s)%nat.
Proof.
  intros Ht. apply replace_all_length. intros x rest H.
  apply lit_match_length in H. unfold const_repl. lia.
Qed.

Lemma html_to_text_length s : (length (html_to_text s) <= length s)%nat.
Proof.
  unfold html_to_text, decode_entities.
  pose proof (strip_style_length s) as H1.
  pose proof (strip_tags_length (strip_style s)) as H2.
  set (t0 := strip_tags (strip_style s)) in *.
  pose proof (replace_lit_length "&nbsp;" [SP] t0 ltac:(vm_compute; lia)) as H3.
  set (t1 := replace_lit "&nbsp;" [SP] t0) in *.
  pose proof (replace_lit_length "&amp;" [38] t1 ltac:(vm_compute; lia)) as H4.
  set (t2 := replace_lit "&amp;" [38] t1) in *.
  pose proof (replace_lit_length "&lt;" [60] t2 ltac:(vm_compute; lia)) as H5.
  set (t3 := replace_lit "&lt;" [60] t2) in *.
  pose proof (replace_lit_length "&gt;" [62] t3 ltac:(vm_compute; lia)) as H6.
  lia.
Qed.

Lemma str_match_length p raw c :
  lazy_group p -> str_match p raw = Some c -> (length c <= length raw)%nat.
Proof.
  intros Hg H. apply (str_match_spec _ _ _ Hg) in H.
  destruct H as (pre & b & a & post & -> & _).
  rewrite !length_app. lia.
Qed.

(** X13.  The extracted body is never longer than the document; in
    particular the empty document gives the empty body. *)
Theorem extractTextBody_length raw :
  (length (extractTextBody raw) <= length raw)%nat
  /\ extractTextBody [] = [].
Proof.
  assert (H : forall raw, (length (extractTextBody raw) <= length raw)%nat).
  { clear raw. intros raw. unfold extractTextBody.
    destruct (str_match plainRe raw) as [c|] eqn:Ep.
    - pose proof (str_match_length _ _ _ plainRe_lazy Ep).
      pose proof (clean_step_shrinks c). lia.
    - destruct (str_match htmlRe raw) as [c|] eqn:Eh.
      + pose proof (str_match_length _ _ _ htmlRe_lazy Eh).
        pose proof (html_to_text_length c).
        pose proof (clean_step_shrinks (html_to_text c)). lia.
      + cbv zeta. destruct (0 <? indexOf blank_line raw)%Z.
        * unfold slice_from.
          pose proof (clean_step_shrinks
                        (skipn (Z.to_nat (indexOf blank_line raw + 4)) raw)).
          pose proof (length_skipn
                        (Z.to_nat (indexOf blank_line raw + 4)) raw). lia.
        * unfold slice_to. rewrite length_firstn. lia. }
  split; [apply H|].
  specialize (H []).
  destruct (extractTextBody []) as [|c t]; [reflexivity|].
  simpl length in H. lia.
Qed.

(** X14.  Whenever a text/plain or a text/html section is found, the
    extracted body is whitespace-normalised: single spaces only, none at
    either end, no line break. *)
Theorem section_body_is_normalised raw c0 :
  has_section plainRe raw c0 \/ has_section htmlRe raw c0 ->
  single_spaced (extractTextBody raw)
  /\ trim (extractTextBody raw) = extractTextBody raw
  /\ ~ In CR (extractTextBody raw) /\ ~ In LF (extractTextBody raw).
Proof.
  intros H.
  assert (E : exists t, extractTextBody raw = cleanBody t).
  { unfold extractTextBody.
    destruct (str_match plainRe raw) as [c|] eqn:Ep; [eauto|].
    destruct H as [H|H].
    - apply str_match_complete in H. destruct H as (c' & H). congruence.
    - apply str_match_complete in H. destruct H as (c' & ->). eauto. }
  destruct E as (t & ->).
  pose proof (cleanBody_single_spaced t) as H1.
  split; [exact H1|]. split; [unfold cleanBody; apply trim_idem|].
  split; intros Hin;
    apply (single_spaced_in _ _ H1) in Hin; try reflexivity; discriminate.
Qed.

Lemma section_body_is_normalised_witness :
  single_spaced (extractTextBody sample_both)
  /\ trim (extractTextBody sample_both) = extractTextBody sample_both
  /\ ~ In CR (extractTextBody sample_both)
  /\ ~ In LF (extractTextBody sample_both).
Proof.
  apply (section_body_is_normalised sample_both (lit "Service   down.")).
  left. apply leftmost_has_section; [reflexivity|].
  apply str_match_spec; [reflexivity|]. vm_compute. reflexivity.
Defined.

(** ** The HTML steps on their own *)

Lemma no_lt_class s : ~ In 60 s -> Forall (fun c => ci 60 c = false) s.
Proof.
  intros H. apply Forall_forall. intros c Hc.
  destruct (ci 60 c) eqn:E; [|reflexivity].
  apply ci_below_l in E; [|reflexivity]. subst c. contradiction.
Qed.

Lemma no_code_unit_class x s :
  ~ In x s -> Forall (fun c => (x =? c) = false) s.
Proof.
  intros H. apply Forall_forall. intros c Hc. apply N.eqb_neq.
  intros <-. auto.
Qed.

Lemma replace_lit_no_first e t e1 e' s :
  lit e = e1 :: e' -> ~ In e1 s -> replace_lit e t s = s.
Proof.
  intros E H. unfold replace_lit, Lit. rewrite E. simpl Str.
  apply replace_all_no_match, no_match_first_class, no_code_unit_class, H.
Qed.

Lemma no_match_by_head r s :
  m r (@Some jsstring) [] = None ->
  (forall c b, In c s -> m r (@Some jsstring) (c :: b) = None) ->
  no_match r s.
Proof.
  intros Hnil H a b ->. destruct b as [|c b]; [exact Hnil|].
  apply H. apply in_or_app. right. left. reflexivity.
Qed.

Lemma style_at_other c s :
  ci 60 c = false -> m styleRe (@Some jsstring) (c :: s) = None.
Proof.
  intros H. unfold styleRe.
  change (LitI "<style") with (Seq (Chr (ci 60)) (Str ci (lit "style"))).
  rewrite !m_seq, m_chr_cons, H. reflexivity.
Qed.

(** X15.  Text without [<] and without [&] passes through the style, tag
    and entity steps unchanged. *)
Theorem html_to_text_plain s :
  ~ In 60 s -> ~ In 38 s -> html_to_text s = s.
Proof.
  intros Hlt Hamp. unfold html_to_text, decode_entities.
  assert (E1 : strip_style s = s).
  { apply replace_all_no_match, no_match_by_head; [reflexivity|].
    intros c b Hc. apply style_at_other.
    pose proof (no_lt_class s Hlt) as Hf. rewrite Forall_forall in Hf.
    apply Hf, Hc. }
  assert (E2 : strip_tags s = s).
  { apply replace_all_no_match, no_match_by_head; [reflexivity|].
    intros c b Hc. apply tag_at_other. intros ->. contradiction. }
  rewrite E1, E2.
  rewrite (replace_lit_no_first "&nbsp;" [SP] 38 (lit "nbsp;") s eq_refl Hamp).
  rewrite (replace_lit_no_first "&amp;" [38] 38 (lit "amp;") s eq_refl Hamp).
  rewrite (replace_lit_no_first "&lt;" [60] 38 (lit "lt;") s eq_refl Hamp).
  rewrite (replace_lit_no_first "&gt;" [62] 38 (lit "gt;") s eq_refl Hamp).
  reflexivity.
Qed.

Lemma html_to_text_plain_witness :
  html_to_text (lit "a > b; 100% up") = lit "a > b; 100% up".
Proof.
  apply (html_to_text_plain (lit "a > b; 100% up"));
    vm_compute; intuition discriminate.
Defined.

(** A prefix read off the output of a replacement by one code unit [x],
    when [x] is not in the prefix, is a prefix of the input. *)
Lemma starts_with_replace_const r x w s :
  ~ In x w ->
  starts_with w (replace_all r (const_repl [x]) s) = true ->
  starts_with w s = true.
Proof.
  revert s. induction w as [|d w IH]; intros s Hx H; [reflexivity|].
  assert (Hd : (d =? x) = false)
    by (apply N.eqb_neq; intros ->; apply Hx; left; reflexivity).
  rewrite replace_all_unfold in H.
  destruct (m r (@Some jsstring) s) as [rest|] eqn:E.
  - exfalso. unfold const_repl in H.
    destruct (length rest <? length s)%nat.
    + simpl in H. rewrite Hd in H. discriminate.
    + destruct s as [|c s]; simpl in H; rewrite Hd in H; discriminate.
  - destruct s as [|c s]; [discriminate|]. simpl in H. simpl.
    apply andb_true_iff in H. destruct H as [H1 H2].
    rewrite H1. simpl. apply IH; [|exact H2].
    intros Hin. apply Hx. right. exact Hin.
Qed.

Lemma occurs_iff_starts w u :
  occurs w u <-> exists a b, u = a ++ b /\ starts_with w b = true.
Proof.
  split.
  - intros (a & b & ->). exists a, (w ++ b). split; [reflexivity|].
    apply starts_with_app.
  - intros (a & b & -> & H). apply starts_with_spec in H.
    destruct H as (b' & ->). exists a, b'. reflexivity.
Qed.

(** An occurrence of [w] in the output of a replacement by one code unit
    that is not in [w] was in the input. *)
Lemma occurs_replace_const r x w s :
  (forall y rest, m r (@Some jsstring) y = Some rest ->
                  (length rest < length y)%nat) ->
  ~ In x w ->
  occurs w (replace_all r (const_repl [x]) s) -> occurs w s.
Proof.
  intros Hne Hx. pattern s. apply length_induction. clear s. intros s IH Ho.
  apply occurs_iff_starts in Ho. destruct Ho as (a & b & E & Hb).
  destruct a as [|y a].
  - simpl in E. rewrite <- E in Hb.
    apply starts_with_replace_const in Hb; [|exact Hx].
    apply occurs_iff_starts. exists [], s. auto.
  - rewrite replace_all_unfold in E.
    destruct (m r (@Some jsstring) s) as [rest|] eqn:Em.
    + pose proof (Hne s rest Em) as L. pose proof L as L'.
      apply Nat.ltb_lt in L'. rewrite L' in E.
      unfold const_repl in E. simpl in E. injection E as _ E.
      assert (Ho : occurs w rest).
      { apply (IH rest L). apply occurs_iff_starts. exists a, b. auto. }
      apply m_sound in Em. destruct Em as (t & v & -> & _ & Ev).
      injection Ev as ->. destruct Ho as (a1 & b1 & ->).
      exists (t ++ a1), b1. rewrite <- app_assoc. reflexivity.
    + destruct s as [|c s]; [discriminate|]. simpl in E.
      injection E as _ E.
      assert (Ho : occurs w s).
      { apply (IH s); [simpl; lia|]. apply occurs_iff_starts.
        exists a, b. auto. }
      destruct Ho as (a1 & b1 & ->). exists (c :: a1), b1. reflexivity.
Qed.

(** After a literal is replaced by one code unit that is not in it, no
    occurrence of the literal is left. *)
Lemma replace_str_absent e1 e x s :
  ~ In x (e1 :: e) ->
  ~ occurs (e1 :: e) (replace_all (Str N.eqb (e1 :: e)) (const_repl [x]) s).
Proof.
  intros Hx Ho. apply occurs_iff_starts in Ho.
  destruct Ho as (u & v & E & Hv). revert u v E Hv.
  pattern s. apply length_induction. clear s. intros s IH u v E Hv.
  assert (H1 : (e1 =? x) = false)
    by (apply N.eqb_neq; intros ->; apply Hx; left; reflexivity).
  rewrite replace_all_unfold in E.
  destruct (m (Str N.eqb (e1 :: e)) (@Some jsstring) s) as [rest|] eqn:Em.
  - pose proof (lit_match_length _ _ _ Em) as L.
    assert (L' : (length rest <? length s)%nat = true)
      by (apply Nat.ltb_lt; simpl in L; lia).
    rewrite L' in E. unfold const_repl in E. simpl in E.
    destruct u as [|y u]; simpl in E.
    + subst v. simpl in Hv. rewrite H1 in Hv. discriminate.
    + injection E as _ E. apply (IH rest) with (u := u) (v := v); auto.
      simpl in L. lia.
  - destruct s as [|c s].
    + symmetry in E. apply app_eq_nil in E. destruct E as [_ ->].
      discriminate.
    + destruct u as [|y u]; simpl in E.
      * subst v. simpl in Hv. apply andb_true_iff in Hv.
        destruct Hv as [Hc Hv].
        apply starts_with_replace_const in Hv;
          [|intros Hin; apply Hx; right; exact Hin].
        rewrite lit_at in Em. simpl in Em. rewrite Hc, Hv in Em.
        discriminate.
      * injection E as _ E. apply (IH s) with (u := u) (v := v); auto.
Qed.

(** X16.  After the entity steps no [&lt;] and no [&gt;] is left in the
    text. *)
Theorem decode_entities_leaves_no_angle_entity s :
  ~ occurs (lit "&lt;") (decode_entities s)
  /\ ~ occurs (lit "&gt;") (decode_entities s).
Proof.
  unfold decode_entities.
  set (t2 := replace_lit "&amp;" [38] (replace_lit "&nbsp;" [SP] s)).
  split.
  - intros Ho. unfold replace_lit at 1 in Ho.
    apply occurs_replace_const in Ho.
    + revert Ho. unfold replace_lit, Lit.
      change (lit "&lt;") with (38 :: lit "lt;").
      apply replace_str_absent. vm_compute. intuition discriminate.
    + intros y rest H. unfold Lit in H. apply lit_match_length in H.
      change (length (lit "&gt;")) with 4%nat in H. lia.
    + vm_compute. intuition discriminate.
  - unfold replace_lit at 1, Lit.
    change (lit "&gt;") with (38 :: lit "gt;").
    apply replace_str_absent. vm_compute. intuition discriminate.
Qed.

(** ** Fixed points of the clean step *)

Lemma has_hex_escape_true u :
  has_hex_escape u = true ->
  exists h1 h2, is_hex h1 = true /\ is_hex h2 = true
                /\ occurs [61; h1; h2] u.
Proof.
  induction u as [|c1 t IH]; simpl; [discriminate|].
  intros B. apply orb_true_iff in B. destruct B as [B|B].
  - destruct t as [|c2 [|c3 t']]; try discriminate.
    apply andb_true_iff in B. destruct B as [B B3].
    apply andb_true_iff in B. destruct B as [B1 B2].
    apply N.eqb_eq in B1. subst c1.
    exists c2, c3. repeat split; auto. exists [], t'. reflexivity.
  - destruct (IH B) as (h1 & h2 & H1 & H2 & a & b & ->).
    exists h1, h2. repeat split; auto. exists (c1 :: a), b. reflexivity.
Qed.

(** X17.  The clean step leaves a text unchanged exactly when the text
    is already whitespace-normalised and holds no [=XX] escape. *)
Theorem cleanBody_fixed_points s :
  cleanBody s = s
  <-> (single_spaced s /\ trim s = s /\ no_hex_escape s).
Proof.
  split.
  - intros E.
    assert (Hs : single_spaced s)
      by (rewrite <- E; apply cleanBody_single_spaced).
    split; [exact Hs|]. split.
    + rewrite <- E at 1. unfold cleanBody. rewrite trim_idem. exact E.
    + apply has_hex_escape_spec.
      destruct (has_hex_escape s) eqn:B; [exfalso|reflexivity].
      apply has_hex_escape_true in B.
      destruct B as (h1 & h2 & H1 & H2 & Ho).
      pose proof (decode_hex_shrinks _ _ _ H1 H2 Ho) as Hd.
      pose proof (collapse_length (decode_hex_escapes s)).
      pose proof (trim_length (collapse_spaces (decode_hex_escapes s))).
      assert (L : length (cleanBody s) = length s) by (rewrite E; reflexivity).
      unfold cleanBody in L.
      rewrite (single_spaced_no_soft_break _ Hs) in L. lia.
  - intros (Hs & Ht & Hx). unfold cleanBody.
    rewrite (single_spaced_no_soft_break _ Hs), (no_hex_escape_fixed _ Hx),
      (collapse_fixed _ Hs).
    exact Ht.
Qed.

Lemma cleanBody_fixed_points_witness :
  cleanBody (lit "a b=c") = lit "a b=c".
Proof.
  apply (proj2 (cleanBody_fixed_points (lit "a b=c"))).
  split; [|split].
  - vm_compute. intuition discriminate.
  - vm_compute. reflexivity.
  - apply has_hex_escape_spec. vm_compute. reflexivity.
Defined.

(** * Exact matches of the style and tag patterns *)

Lemma m_str_matches (A : Type) p e t (k : jsstring -> option A) b :
  Matches (Str p e) t -> m (Str p e) k (t ++ b) = k b.
Proof.
  revert t. induction e as [|c e IH]; intros t H; simpl Str in *.
  - apply matches_eps_inv in H. subst t. reflexivity.
  - apply matches_seq_inv in H. destruct H as (t1 & t2 & -> & H1 & H2).
    apply matches_chr_inv in H1. destruct H1 as (d & -> & Hd).
    rewrite m_seq. simpl app. rewrite m_chr_cons, Hd. apply IH, H2.
Qed.

Lemma orelse_none_r (A : Type) (x : option A) : orelse x None = x.
Proof. destruct x; reflexivity. Qed.

(** A greedy [[^>]*] before a continuation that wants [>] runs to the
    first [>]. *)
Lemma greedy_to_gt (A : Type) (k K : jsstring -> option A) x r :
  k (62 :: r) = K r -> (forall c w, c <> 62 -> k (c :: w) = None) ->
  ~ In 62 x ->
  m (Star true (Chr not_gt)) k (x ++ 62 :: r) = K r.
Proof.
  intros Hk Hk' Hx. induction x as [|c x IH];
    rewrite m_star_unfold; cbv zeta.
  - simpl app. rewrite m_chr_cons, Hk. reflexivity.
  - simpl app. rewrite m_chr_cons.
    assert (Hc : c <> 62) by (intros ->; apply Hx; left; reflexivity).
    replace (not_gt c) with true by (symmetry; apply not_gt_iff, Hc).
    rewrite (Hk' c _ Hc).
    rewrite ltb_tail, IH; [apply orelse_none_r|].
    intros Hin. apply Hx. right. exact Hin.
Qed.

(** A lazy [[\s\S]*?] returns what the continuation gives at the first
    position it accepts. *)
Lemma lazy_any_at (A : Type) (k : jsstring -> option A) c rest v :
  k rest = Some v ->
  (forall c1 c2, c = c1 ++ c2 -> c2 <> [] -> k (c2 ++ rest) = None) ->
  m (Star false (Chr any_char)) k (c ++ rest) = Some v.
Proof.
  intros Hk. induction c as [|x c IH]; intros Hmin;
    rewrite m_star_unfold; cbv zeta.
  - simpl app. rewrite Hk. reflexivity.
  - rewrite (Hmin [] (x :: c) eq_refl ltac:(discriminate)).
    cbn [orelse app]. rewrite m_chr_cons.
    replace (any_char x) with true
      by (unfold any_char; destruct (is_space x); reflexivity).
    rewrite ltb_tail. apply IH.
    intros c1 c2 E Hne. apply (Hmin (x :: c1) c2); [|exact Hne].
    rewrite E. reflexivity.
Qed.

Lemma tag_match_exact y r :
  y <> [] -> ~ In 62 y ->
  m tagRe (@Some jsstring) (60 :: y ++ 62 :: r) = Some r.
Proof.
  intros Hne Hy. destruct y as [|c y]; [congruence|].
  unfold tagRe, Plus. rewrite m_seq, m_chr_cons.
  change (60 =? 60) with true. cbv iota.
  rewrite !m_seq. simpl app. rewrite m_chr_cons.
  replace (not_gt c) with true
    by (symmetry; apply not_gt_iff; intros ->; apply Hy; left; reflexivity).
  apply greedy_to_gt.
  - reflexivity.
  - intros d w Hd. rewrite m_chr_cons.
    replace (62 =? d) with false; [reflexivity|].
    symmetry. apply N.eqb_neq. congruence.
  - intros Hin. apply Hy. right. exact Hin.
Qed.

Lemma style_close_at_other c s :
  c <> 60 -> m (LitI "</style>") (@Some jsstring) (c :: s) = None.
Proof.
  intros Hc. change (LitI "</style>")
    with (Seq (Chr (ci 60)) (Str ci (lit "/style>"))).
  rewrite m_seq, m_chr_cons.
  destruct (ci 60 c) eqn:E; [|reflexivity].
  apply ci_below_l in E; [congruence|reflexivity].
Qed.

Lemma style_match_exact o x y cl b :
  Matches (LitI "<style") o -> ~ In 62 x -> ~ In 60 y ->
  Matches (LitI "</style>") cl ->
  m styleRe (@Some jsstring) (o ++ x ++ [62] ++ y ++ cl ++ b) = Some b.
Proof.
  intros Ho Hx Hy Hcl. unfold styleRe. rewrite m_seq.
  unfold LitI at 1. rewrite (m_str_matches _ _ _ _ _ _ Ho).
  rewrite !m_seq.
  change (x ++ [62] ++ y ++ cl ++ b) with (x ++ 62 :: (y ++ cl ++ b)).
  rewrite (greedy_to_gt _ _
             (m (Seq (Star false (Chr any_char)) (LitI "</style>"))
                (@Some jsstring)));
    [|reflexivity
     |intros c w Hc; rewrite m_seq, m_chr_cons;
      destruct (ci 62 c) eqn:E; [|reflexivity];
      apply ci_below_l in E; [congruence|reflexivity]
     |exact Hx].
  rewrite m_seq. apply lazy_any_at.
  - unfold LitI. apply m_str_matches. exact Hcl.
  - intros c1 c2 E Hne. destruct c2 as [|d c2]; [congruence|].
    simpl app. apply style_close_at_other. intros ->. apply Hy.
    rewrite E. apply in_or_app. right. left. reflexivity.
Qed.

(** * What the style and tag steps do *)

Lemma replace_all_skip_prefix r f a s :
  (forall c w, In c a -> m r (@Some jsstring) (c :: w) = None) ->
  replace_all r f (a ++ s) = a ++ replace_all r f s.
Proof.
  induction a as [|c a IH]; intros H; [reflexivity|].
  simpl app. rewrite replace_all_skip by (apply H; left; reflexivity).
  f_equal. apply IH. intros d w Hd. apply H. right. exact Hd.
Qed.

Lemma matches_str_nonempty p c e t : Matches (Str p (c :: e)) t -> t <> [].
Proof.
  simpl Str. intros H. apply matches_seq_inv in H.
  destruct H as (t1 & t2 & -> & H1 & _). apply matches_chr_inv in H1.
  destruct H1 as (d & -> & _). discriminate.
Qed.

Lemma style_blocks_removed : style_blocks_vanish.
Proof.
  intros a o x y cl b Ha Ho Hx Hy Hcl. unfold strip_style.
  rewrite replace_all_skip_prefix.
  2:{ intros c w Hc. apply style_at_other.
      destruct (ci 60 c) eqn:E; [|reflexivity].
      apply ci_below_l in E; [|reflexivity]. subst c. contradiction. }
  f_equal.
  replace (o ++ x ++ [62] ++ y ++ cl ++ b)
    with ((o ++ x ++ [62] ++ y ++ cl) ++ b)
    by (repeat rewrite <- app_assoc; reflexivity).
  rewrite replace_all_hit.
  - reflexivity.
  - intros E. apply app_eq_nil in E. destruct E as [E _].
    revert E. apply (matches_str_nonempty ci 60 (lit "style")). exact Ho.
  - repeat rewrite <- app_assoc. apply style_match_exact; assumption.
Qed.

Lemma markup_free_is_kept : markup_free_kept.
Proof.
  intros s Hlt. split.
  - apply replace_all_no_match, no_match_by_head; [reflexivity|].
    intros c b Hc. apply style_at_other.
    destruct (ci 60 c) eqn:E; [|reflexivity].
    apply ci_below_l in E; [|reflexivity]. subst c. contradiction.
  - apply replace_all_no_match, no_match_by_head; [reflexivity|].
    intros c b Hc. apply tag_at_other. intros ->. contradiction.
Qed.

Lemma closed_tags_suffix p z : closed_tags (p ++ z) -> closed_tags z.
Proof.
  intros H a1 a2 ->. apply (H (p ++ a1) a2). rewrite <- app_assoc.
  reflexivity.
Qed.

(** A tag found in a closed [a] followed by [w] is found in [a] alone,
    and conversely. *)
Lemma tag_local a w :
  a <> [] -> closed_tags a ->
  (m tagRe (@Some jsstring) (a ++ w) = None
   /\ m tagRe (@Some jsstring) a = None)
  \/ exists t a',
      a = t ++ a' /\ t <> []
      /\ m tagRe (@Some jsstring) (a ++ w) = Some (a' ++ w)
      /\ m tagRe (@Some jsstring) a = Some a'.
Proof.
  intros Hne Hc. destruct a as [|x a]; [congruence|].
  destruct (N.eq_dec x 60) as [->|Hx].
  2:{ left. split; apply tag_at_other; assumption. }
  pose proof (Hc [] a eq_refl) as Hin.
  destruct a as [|y0 a]; [contradiction|].
  destruct (N.eq_dec y0 62) as [->|Hy0].
  - left. split; apply tag_at_none; right; left; eexists; reflexivity.
  - destruct (first_occurrence 62 (y0 :: a) Hin) as (y & z & E & Hy).
    assert (Hyne : y <> []).
    { intros ->. simpl in E. congruence. }
    right. exists (60 :: y ++ [62]), z. rewrite E. split; [|split; [|split]].
    + simpl. rewrite <- app_assoc. reflexivity.
    + discriminate.
    + simpl app. rewrite <- app_assoc. simpl app.
      apply tag_match_exact; assumption.
    + apply tag_match_exact; assumption.
Qed.

Lemma tags_are_replaced : tags_become_spaces.
Proof.
  intros a t b Hc (x & -> & Hne & Hx). revert Hc.
  pattern a. apply length_induction. clear a. intros a IH Hc.
  unfold strip_tags in *.
  assert (Hhit : m tagRe (@Some jsstring) ((60 :: x ++ [62]) ++ b) = Some b).
  { simpl app. rewrite <- app_assoc. simpl app.
    apply tag_match_exact; assumption. }
  destruct a as [|c a].
  - change ([] ++ (60 :: x ++ [62]) ++ b) with ((60 :: x ++ [62]) ++ b).
    rewrite (replace_all_hit tagRe _ (60 :: x ++ [62]) b
               ltac:(discriminate) Hhit).
    rewrite replace_all_nil by reflexivity. reflexivity.
  - destruct (tag_local (c :: a) ((60 :: x ++ [62]) ++ b)
                ltac:(discriminate) Hc)
      as [[E1 E2]|(u & a' & E & Hu & E1 & E2)].
    + change ((c :: a) ++ (60 :: x ++ [62]) ++ b)
        with (c :: a ++ (60 :: x ++ [62]) ++ b) in *.
      rewrite (replace_all_skip _ _ _ _ E1).
      rewrite (replace_all_skip _ _ _ _ E2).
      simpl. f_equal. apply (IH a); [simpl; lia|].
      apply (closed_tags_suffix [c]). exact Hc.
    + rewrite E in *. rewrite <- app_assoc in *.
      rewrite (replace_all_hit _ _ _ _ Hu E1).
      rewrite (replace_all_hit _ _ _ _ Hu E2).
      rewrite <- app_assoc. f_equal. apply (IH a').
      * rewrite length_app. destruct u; [congruence|]. simpl. lia.
      * apply (closed_tags_suffix u). exact Hc.
Qed.

(** * What the entity steps do together *)

(** A literal replacement works on both sides of a code unit [c] at
    which no match starts and which is not in the tail of the literal. *)
Lemma replace_str_sep e1 e t a c b :
  ~ In c e -> starts_with (e1 :: e) (c :: b) = false ->
  replace_all (Str N.eqb (e1 :: e)) (const_repl t) (a ++ c :: b)
  = replace_all (Str N.eqb (e1 :: e)) (const_repl t) a
    ++ c :: replace_all (Str N.eqb (e1 :: e)) (const_repl t) b.
Proof.
  intros Hc Hb. pattern a. apply length_induction. clear a. intros a IH.
  destruct a as [|x a].
  - change ([] ++ c :: b) with (c :: b).
    rewrite replace_all_skip by (rewrite lit_at, Hb; reflexivity).
    rewrite replace_all_nil by (rewrite lit_at; reflexivity). reflexivity.
  - assert (E : starts_with (e1 :: e) ((x :: a) ++ c :: b)
                = starts_with (e1 :: e) (x :: a)).
    { simpl. rewrite starts_with_before by exact Hc. reflexivity. }
    destruct (starts_with (e1 :: e) (x :: a)) eqn:E'.
    + pose proof E' as E2. apply starts_with_spec in E2.
      destruct E2 as (a' & E2). rewrite E2. rewrite <- app_assoc.
      rewrite (replace_all_hit _ _ (e1 :: e) (a' ++ c :: b));
        [|discriminate
         |rewrite lit_at, starts_with_app, skipn_length_app; reflexivity].
      rewrite (replace_all_hit _ _ (e1 :: e) a');
        [|discriminate
         |rewrite lit_at, starts_with_app, skipn_length_app; reflexivity].
      rewrite <- app_assoc. f_equal. apply IH.
      apply (f_equal (@length N)) in E2. rewrite length_app in E2.
      simpl in E2. simpl. lia.
    + change ((x :: a) ++ c :: b) with (x :: a ++ c :: b) in *.
      rewrite replace_all_skip by (rewrite lit_at, E; reflexivity).
      rewrite (replace_all_skip _ _ x a) by (rewrite lit_at, E'; reflexivity).
      simpl. f_equal. apply (IH a). simpl. lia.
Qed.

(** Code units other than the first of the literal are stepped over. *)
Lemma replace_str_word e1 e t w b :
  ~ In e1 w ->
  replace_all (Str N.eqb (e1 :: e)) (const_repl t) (w ++ b)
  = w ++ replace_all (Str N.eqb (e1 :: e)) (const_repl t) b.
Proof.
  intros H. apply replace_all_skip_prefix. intros c v Hc.
  rewrite lit_at. simpl.
  replace (e1 =? c) with false; [reflexivity|].
  symmetry. apply N.eqb_neq. intros <-. contradiction.
Qed.

(** A literal replacement leaves another word [e1 :: w] alone, when the
    literal does not match at its start. *)
Lemma replace_str_other e1 e t w a b :
  ~ In e1 e -> ~ In e1 w ->
  (forall v, starts_with e (w ++ v) = false) ->
  replace_all (Str N.eqb (e1 :: e)) (const_repl t) (a ++ (e1 :: w) ++ b)
  = replace_all (Str N.eqb (e1 :: e)) (const_repl t) a
    ++ (e1 :: w) ++ replace_all (Str N.eqb (e1 :: e)) (const_repl t) b.
Proof.
  intros He Hw Hs. simpl app.
  rewrite replace_str_sep; [|exact He|].
  - rewrite replace_str_word by exact Hw. reflexivity.
  - simpl. rewrite N.eqb_refl. apply Hs.
Qed.

Lemma starts_false_through r x w s :
  ~ In x w -> starts_with w s = false ->
  starts_with w (replace_all r (const_repl [x]) s) = false.
Proof.
  intros Hx H.
  destruct (starts_with w (replace_all r (const_repl [x]) s)) eqn:E;
    [|reflexivity].
  apply starts_with_replace_const in E; [congruence|exact Hx].
Qed.

Ltac entity_side :=
  first [ reflexivity
        | intros; reflexivity
        | vm_compute; intuition discriminate ].

Lemma nbsp_is_decoded : entity_decoded "&nbsp;" SP.
Proof.
  intros a b. unfold decode_entities, replace_lit, Lit.
  change (lit "&nbsp;") with (38 :: lit "nbsp;").
  change (lit "&amp;") with (38 :: lit "amp;").
  change (lit "&lt;") with (38 :: lit "lt;").
  change (lit "&gt;") with (38 :: lit "gt;").
  rewrite (replace_str_app 38 (lit "nbsp;")) by entity_side.
  change ([SP] ++ ?x) with (SP :: x).
  rewrite (replace_str_sep 38 (lit "amp;")) by entity_side.
  rewrite (replace_str_sep 38 (lit "lt;")) by entity_side.
  rewrite (replace_str_sep 38 (lit "gt;")) by entity_side.
  reflexivity.
Qed.

Lemma lt_is_decoded : entity_decoded "&lt;" 60.
Proof.
  intros a b. unfold decode_entities, replace_lit, Lit.
  change (lit "&nbsp;") with (38 :: lit "nbsp;").
  change (lit "&amp;") with (38 :: lit "amp;").
  change (lit "&lt;") with (38 :: lit "lt;").
  change (lit "&gt;") with (38 :: lit "gt;").
  rewrite (replace_str_other 38 (lit "nbsp;") _ (lit "lt;")) by entity_side.
  rewrite (replace_str_other 38 (lit "amp;") _ (lit "lt;")) by entity_side.
  rewrite (replace_str_app 38 (lit "lt;")) by entity_side.
  change ([60] ++ ?x) with (60 :: x).
  rewrite (replace_str_sep 38 (lit "gt;")) by entity_side.
  reflexivity.
Qed.

Lemma gt_is_decoded : entity_decoded "&gt;" 62.
Proof.
  intros a b. unfold decode_entities, replace_lit, Lit.
  change (lit "&nbsp;") with (38 :: lit "nbsp;").
  change (lit "&amp;") with (38 :: lit "amp;").
  change (lit "&lt;") with (38 :: lit "lt;").
  change (lit "&gt;") with (38 :: lit "gt;").
  rewrite (replace_str_other 38 (lit "nbsp;") _ (lit "gt;")) by entity_side.
  rewrite (replace_str_other 38 (lit "amp;") _ (lit "gt;")) by entity_side.
  rewrite (replace_str_other 38 (lit "lt;") _ (lit "gt;")) by entity_side.
  rewrite (replace_str_app 38 (lit "gt;")) by entity_side.
  reflexivity.
Qed.

Lemma starts_with_same c w s :
  starts_with (c :: w) (c :: s) = starts_with w s.
Proof. simpl. rewrite N.eqb_refl. reflexivity. Qed.

Lemma amp_is_decoded : amp_decoded.
Proof.
  intros a b Hlt Hgt. unfold decode_entities, replace_lit, Lit.
  change (lit "&nbsp;") with (38 :: lit "nbsp;").
  change (lit "&amp;") with (38 :: lit "amp;").
  change (lit "&lt;") with (38 :: lit "lt;").
  change (lit "&gt;") with (38 :: lit "gt;").
  rewrite (replace_str_other 38 (lit "nbsp;") _ (lit "amp;")) by entity_side.
  rewrite (replace_str_app 38 (lit "amp;")) by entity_side.
  change ([38] ++ ?x) with (38 :: x).
  rewrite (replace_str_sep 38 (lit "lt;")).
  - rewrite (replace_str_sep 38 (lit "gt;")); [reflexivity|entity_side|].
    rewrite starts_with_same. apply starts_false_through; [entity_side|].
    apply starts_false_through; [entity_side|].
    apply starts_false_through; [entity_side|]. exact Hgt.
  - entity_side.
  - rewrite starts_with_same. apply starts_false_through; [entity_side|].
    apply starts_false_through; [entity_side|]. exact Hlt.
Qed.

(** * The two section branches *)

Lemma hex_escapes_decoded : hex_decoded.
Proof.
  intros a h1 h2 b H1 H2.
  assert (Hhit : m hexEscapeRe (@Some jsstring) ([61; h1; h2] ++ b) = Some b).
  { rewrite hexEscape_formula. simpl. rewrite H1, H2. reflexivity. }
  pattern a. apply length_induction. clear a. intros a IH.
  unfold decode_hex_escapes in *.
  destruct a as [|x a].
  - change ([] ++ [61; h1; h2] ++ b) with ([61; h1; h2] ++ b).
    rewrite (replace_all_hit _ _ [61; h1; h2] b ltac:(discriminate) Hhit).
    rewrite (hex_repl_value h1 h2 H1 H2).
    rewrite replace_all_nil by reflexivity. reflexivity.
  - change ([61; h1; h2] ++ b) with (61 :: [h1; h2] ++ b) in *.
    destruct (hexEscape_local (x :: a) ([h1; h2] ++ b) ltac:(discriminate))
      as [[E1 E2]|(u & a' & E & Hu & E1 & E2)].
    + change ((x :: a) ++ 61 :: [h1; h2] ++ b)
        with (x :: a ++ 61 :: [h1; h2] ++ b) in *.
      rewrite (replace_all_skip _ _ _ _ E1).
      rewrite (replace_all_skip _ _ _ _ E2).
      simpl. f_equal. apply (IH a). simpl. lia.
    + rewrite E in *. rewrite <- app_assoc in *.
      rewrite (replace_all_hit _ _ _ _ Hu E1).
      rewrite (replace_all_hit _ _ _ _ Hu E2).
      rewrite <- app_assoc. f_equal. apply (IH a').
      rewrite length_app. destruct u; [congruence|]. simpl. lia.
Qed.

Lemma cleanBody_cleaned c : cleaned c (cleanBody c).
Proof.
  split; [reflexivity|]. split; [apply cleanBody_single_spaced|].
  unfold cleanBody. apply trim_idem.
Qed.






